(** * awsspectre: the scanning and metrics-aggregation engine

    A shallow embedding of the Go code of [internal/aws]:
    - [fetchMetric], [batchIDs], [FetchAverage], [FetchSum]
      (the CloudWatch metrics fetcher),
    - [scanRegion], [ScanAll], [NewMultiRegionScanner]
      (the region and multi-region orchestrators),
    - [ShouldExclude] (the exclusion rules).

    Go [float64] values are Rocq primitive floats, Go [int] values are [Z]
    (with the 64-bit wrap-around written out where the code adds them),
    Go maps used by the code are stdpp [gmap]s, and a Go [nil] map is the
    empty map for every read the code performs. *)

From Stdlib Require Import ZArith Floats Lia Ascii String.
From stdpp Require Import base gmap strings list.

Open Scope Z_scope.

(* ------------------------------------------------------------------ *)
(** ** Go integers *)

Definition int64_min : Z := - 2 ^ 63.
Definition int64_max : Z := 2 ^ 63 - 1.

(** Two's complement wrap-around of a 64-bit Go [int]. *)
Definition wrap64 (z : Z) : Z := (z + 2 ^ 63) mod 2 ^ 64 - 2 ^ 63.

Definition in_int64 (z : Z) : bool := (int64_min <=? z) && (z <=? int64_max).

(* ------------------------------------------------------------------ *)
(** ** [fmt.Sscanf(s, "m%d", &idx)]

    The literal [m] must be the first rune; the [%d] verb then skips
    blanks, accepts an optional sign and at least one decimal digit, and
    fails when the value does not fit in a Go [int]. Input left after the
    number is not an error for [Sscanf]. The string is its UTF-8 bytes.
    Blanks are skipped as [SkipSpace] does for [Sscanf]: a newline is an
    error ("unexpected newline"); the runes of [isSpace] are skipped:
    U+0009, U+000B..U+000D, U+0020, U+0085, U+00A0, U+1680,
    U+2000..U+200A, U+2028, U+2029, U+202F, U+205F and U+3000. *)

(** The one-byte blanks: tab, vertical tab, form feed, carriage return
    and space. *)
Definition is_blank (c : ascii) : bool :=
  let n := Ascii.nat_of_ascii c in
  (n =? 9)%nat || (n =? 11)%nat || (n =? 12)%nat || (n =? 13)%nat || (n =? 32)%nat.

Definition byte_is (c : ascii) (n : nat) : bool := (Ascii.nat_of_ascii c =? n)%nat.

(** The two-byte blanks: U+0085 ([C2 85]) and U+00A0 ([C2 A0]). *)
Definition is_blank2 (c0 c1 : ascii) : bool :=
  byte_is c0 194 && (byte_is c1 133 || byte_is c1 160).

(** The three-byte blanks: U+1680 ([E1 9A 80]), U+2000..U+200A
    ([E2 80 80..8A]), U+2028, U+2029, U+202F ([E2 80 A8], [A9], [AF]),
    U+205F ([E2 81 9F]) and U+3000 ([E3 80 80]). *)
Definition is_blank3 (c0 c1 c2 : ascii) : bool :=
  let n2 := Ascii.nat_of_ascii c2 in
  (byte_is c0 225 && byte_is c1 154 && byte_is c2 128)
  || (byte_is c0 226 && byte_is c1 128 &&
        (((128 <=? n2)%nat && (n2 <=? 138)%nat) || byte_is c2 168
         || byte_is c2 169 || byte_is c2 175))
  || (byte_is c0 226 && byte_is c1 129 && byte_is c2 159)
  || (byte_is c0 227 && byte_is c1 128 && byte_is c2 128).

Definition is_digit (c : ascii) : bool :=
  (48 <=? Ascii.nat_of_ascii c)%nat && (Ascii.nat_of_ascii c <=? 57)%nat.

Definition digit_val (c : ascii) : Z := Z.of_nat (Ascii.nat_of_ascii c) - 48.

(** [SkipSpace]; [None] is the newline error. *)
Fixpoint skip_blanks (s : string) : option string :=
  match s with
  | EmptyString => Some s
  | String c t =>
      if byte_is c 10 then None
      else if is_blank c then skip_blanks t
      else match t with
           | String c1 t1 =>
               if is_blank2 c c1 then skip_blanks t1
               else match t1 with
                    | String c2 t2 =>
                        if is_blank3 c c1 c2 then skip_blanks t2 else Some s
                    | EmptyString => Some s
                    end
           | EmptyString => Some s
           end
  end.

Fixpoint leading_digits (s : string) : list Z :=
  match s with
  | String c t => if is_digit c then digit_val c :: leading_digits t else []
  | EmptyString => []
  end.

Definition decimal_value (ds : list Z) : Z :=
  fold_left (fun acc d => 10 * acc + d) ds 0.

Definition sscanf_m_d (s : string) : option Z :=
  match s with
  | String c rest =>
      if Ascii.eqb c "m"%char then
        match skip_blanks rest with
        | None => None
        | Some r =>
            let '(neg, r') :=
              match r with
              | String c' t =>
                  if Ascii.eqb c' "-"%char then (true, t)
                  else if Ascii.eqb c' "+"%char then (false, t)
                  else (false, r)
              | EmptyString => (false, r)
              end in
            match leading_digits r' with
            | [] => None
            | ds =>
                let v := decimal_value ds in
                let x := if neg then - v else v in
                if in_int64 x then Some x else None
            end
        end
      else None
  | EmptyString => None
  end.

(** The decimal digits of [n], most significant first, as [%d] prints a
    non-negative [int]; [fuel] bounds the number of divisions. *)
Fixpoint dec_digits (fuel n : nat) : list nat :=
  match fuel with
  | O => [n]
  | S f => if (n <? 10)%nat then [n] else dec_digits f (n / 10)%nat ++ [(n mod 10)%nat]
  end.

Definition digit_char (d : nat) : ascii := Ascii.ascii_of_nat (48 + d).

Fixpoint string_of_digits (ds : list nat) : string :=
  match ds with
  | [] => EmptyString
  | d :: t => String (digit_char d) (string_of_digits t)
  end.

Definition itoa (n : nat) : string := string_of_digits (dec_digits n n).

(** [fmt.Sprintf("m%d", i)] *)
Definition queryID (i : nat) : string := String "m"%char (itoa i).

(** Go slice indexing [s[i]]: out of range (negative included) is a
    run-time panic, here [None]. *)
Definition go_index {A} (s : list A) (i : Z) : option A :=
  if i <? 0 then None else s !! Z.to_nat i.

(* ------------------------------------------------------------------ *)
(** ** [batchIDs] *)

Definition maxMetricDataQueries : Z := 500.
Definition metricPeriodSeconds : Z := 3600.

(** [ids[i:end]] *)
Definition slice {A} (l : list A) (i j : nat) : list A := take (j - i) (drop i l).

(** The loop [for i := 0; i < len(ids); i += batchSize]; it runs at most
    [len(ids)] times since [batchSize >= 1], which is the fuel. *)
Fixpoint batch_loop (fuel : nat) (ids : list string) (size i : nat)
  : list (list string) :=
  match fuel with
  | O => []
  | S f =>
      if (i <? length ids)%nat then
        let end_ := (i + size)%nat in
        let end_ := if (length ids <? end_)%nat then length ids else end_ in
        slice ids i end_ :: batch_loop f ids size (i + size)
      else []
  end.

Definition batchIDs (ids : list string) (batchSize : Z) : list (list string) :=
  let batchSize := if batchSize <=? 0 then maxMetricDataQueries else batchSize in
  batch_loop (length ids) ids (Z.to_nat batchSize) 0.

(* ------------------------------------------------------------------ *)
(** ** The CloudWatch request and response *)

Record MetricDataQuery := {
  mdq_Id : string;
  mdq_Namespace : string;
  mdq_MetricName : string;
  mdq_DimensionName : string;
  mdq_DimensionValue : string;
  mdq_Period : Z;
  mdq_Stat : string
}.

Record GetMetricDataInput := {
  gmd_MetricDataQueries : list MetricDataQuery;
  gmd_StartTime : Z;
  gmd_EndTime : Z
}.

Record MetricDataResult := {
  mdr_Id : option string;
  mdr_Values : list float
}.

(** The outcome of one [GetMetricData] call. *)
Inductive CallResult :=
| CallOk (results : list MetricDataResult)
| CallErr (err : string).

(** The remote client: the answer to the [n]-th call made by one fetch. *)
Definition CloudWatchAPI := nat -> GetMetricDataInput -> CallResult.

(** What [fetchMetric] ends with: a map, an error, or a run-time panic. *)
Inductive FetchOutcome :=
| FetchOk (m : gmap string float)
| FetchErr (err : string)
| FetchPanic.

(* ------------------------------------------------------------------ *)
(** ** [fetchMetric] *)

(** [var total float64; for _, v := range values { total += v }] *)
Definition sum_values (vs : list float) : float :=
  fold_left (fun t v => (t + v)%float) vs 0%float.

(** [float64(n)] for a slice length [n]. *)
Definition float_of_len (n : nat) : float := of_uint63 (Uint63.of_Z (Z.of_nat n)).

(** The value stored for one result: the average of the samples for
    ["Average"] (a non-empty list here), their sum otherwise. *)
Definition aggregate (stat : string) (vs : list float) : float :=
  let total := sum_values vs in
  if String.eqb stat "Average" && (0 <? length vs)%nat
  then (total / float_of_len (length vs))%float
  else total.

(** One sub-query per id of the batch, labelled [m<i>]. *)
Definition buildQueries (namespace metricName dimensionName stat : string)
  (batch : list string) : list MetricDataQuery :=
  imap (fun i id =>
          {| mdq_Id := queryID i;
             mdq_Namespace := namespace;
             mdq_MetricName := metricName;
             mdq_DimensionName := dimensionName;
             mdq_DimensionValue := id;
             mdq_Period := metricPeriodSeconds;
             mdq_Stat := stat |}) batch.

(** The loop over [out.MetricDataResults] of one batch; [None] is the
    panic of [batch[idx]]. *)
Fixpoint processResults (batch : list string) (stat : string)
  (rs : list MetricDataResult) (results : gmap string float)
  : option (gmap string float) :=
  match rs with
  | [] => Some results
  | r :: rs' =>
      match mdr_Id r with
      | None => processResults batch stat rs' results
      | Some rid =>
          match sscanf_m_d rid with
          | None => processResults batch stat rs' results
          | Some idx =>
              if Z.of_nat (length batch) <=? idx
              then processResults batch stat rs' results
              else match mdr_Values r with
                   | [] => processResults batch stat rs' results
                   | vs =>
                       match go_index batch idx with
                       | None => None
                       | Some key =>
                           processResults batch stat rs'
                             (<[key := aggregate stat vs]> results)
                       end
                   end
          end
      end
  end.

(** The loop over the batches; [k] numbers the calls. Returns the calls
    issued, in order, and the outcome. *)
Fixpoint fetch_batches (client : CloudWatchAPI) (k : nat)
  (namespace metricName dimensionName stat : string) (startTime now : Z)
  (batches : list (list string)) (results : gmap string float)
  : list GetMetricDataInput * FetchOutcome :=
  match batches with
  | [] => ([], FetchOk results)
  | batch :: rest =>
      let input :=
        {| gmd_MetricDataQueries :=
             buildQueries namespace metricName dimensionName stat batch;
           gmd_StartTime := startTime;
           gmd_EndTime := now |} in
      match client k input with
      | CallErr e =>
          ([input], FetchErr ("get metric data (" +:+ namespace +:+ "/"
                              +:+ metricName +:+ "): " +:+ e))
      | CallOk rs =>
          match processResults batch stat rs results with
          | None => ([input], FetchPanic)
          | Some results' =>
              let '(calls, out) :=
                fetch_batches client (S k) namespace metricName dimensionName
                  stat startTime now rest results' in
              (input :: calls, out)
          end
      end
  end.

(** [time.Hour] in nanoseconds. *)
Definition hour_ns : Z := 3600 * 10 ^ 9.

(** [fetchMetric]; [now] is [time.Now().UTC()] in nanoseconds. For no ids
    the Go code returns a [nil] map, which reads as the empty map. *)
Definition fetchMetric (client : CloudWatchAPI)
  (namespace metricName dimensionName : string) (ids : list string)
  (lookbackDays : Z) (stat : string) (now : Z)
  : list GetMetricDataInput * FetchOutcome :=
  if (length ids =? 0)%nat then ([], FetchOk ∅)
  else
    let startTime := now + wrap64 (wrap64 (- lookbackDays * 24) * hour_ns) in
    let batches := batchIDs ids maxMetricDataQueries in
    fetch_batches client 0 namespace metricName dimensionName stat startTime now
      batches ∅.

Definition FetchAverage (client : CloudWatchAPI)
  (namespace metricName dimensionName : string) (ids : list string)
  (lookbackDays now : Z) : list GetMetricDataInput * FetchOutcome :=
  fetchMetric client namespace metricName dimensionName ids lookbackDays
    "Average" now.

Definition FetchSum (client : CloudWatchAPI)
  (namespace metricName dimensionName : string) (ids : list string)
  (lookbackDays now : Z) : list GetMetricDataInput * FetchOutcome :=
  fetchMetric client namespace metricName dimensionName ids lookbackDays
    "Sum" now.

Example sscanf_m12 : sscanf_m_d "m12" = Some 12.
Proof. reflexivity. Qed.
Example queryID_512 : queryID 512 = "m512"%string.
Proof. reflexivity. Qed.
Example sscanf_neg : sscanf_m_d "m-1" = Some (-1).
Proof. reflexivity. Qed.
Example sscanf_vtab : sscanf_m_d (String "m" (String (Ascii.ascii_of_nat 11) "0")) = Some 0.
Proof. reflexivity. Qed.
Example sscanf_nbsp : sscanf_m_d (String "m" (String (Ascii.ascii_of_nat 194)
                        (String (Ascii.ascii_of_nat 160) "-1"))) = Some (-1).
Proof. reflexivity. Qed.
Example sscanf_newline : sscanf_m_d (String "m" (String (Ascii.ascii_of_nat 10) "0")) = None.
Proof. reflexivity. Qed.
Example batch_501 : length (batchIDs (replicate 501 "i"%string) 500) = 2%nat.
Proof. vm_compute. reflexivity. Qed.

(* ------------------------------------------------------------------ *)
(** ** Findings, results and configuration ([types.go]) *)

Record Finding := {
  f_ID : string;
  f_Severity : string;
  f_ResourceType : string;
  f_ResourceID : string;
  f_ResourceName : string;
  f_Region : string;
  f_Message : string;
  f_EstimatedMonthlyWaste : float;
  (** [map[string]any], values rendered as strings *)
  f_Metadata : gmap string string
}.

Record ScanResult := {
  Findings : list Finding;
  Errors : list string;
  ResourcesScanned : Z;
  RegionsScanned : Z
}.

(** The zero value [ScanResult{}]. *)
Definition emptyResult : ScanResult :=
  {| Findings := []; Errors := []; ResourcesScanned := 0; RegionsScanned := 0 |}.

Record ExcludeConfig := {
  ResourceIDs : gmap string bool;
  Tags : gmap string string
}.

Record ScanConfig := {
  IdleDays : Z;
  StaleDays : Z;
  MinMonthlyCost : float;
  IdleCPUThreshold : float;
  HighMemoryThreshold : float;
  StoppedThresholdDays : Z;
  NATGWLowTrafficGB : float;
  Exclude : ExcludeConfig
}.

(** The loop [for k, v := range e.Tags] with its early [return true];
    [tags] is the resource's (non-nil) tag map. *)
Fixpoint tag_loop (entries : list (string * string)) (tags : gmap string string)
  : bool :=
  match entries with
  | [] => false
  | (k, v) :: rest =>
      match tags !! k with
      | None => tag_loop rest tags
      | Some tagVal =>
          if String.eqb v "" || String.eqb tagVal v then true
          else tag_loop rest tags
      end
  end.

(** [ShouldExclude]; [tags = None] is a [nil] map. A key missing from
    [e.ResourceIDs] reads as [false]. *)
Definition ShouldExclude (e : ExcludeConfig) (resourceID : string)
  (tags : option (gmap string string)) : bool :=
  if default false (ResourceIDs e !! resourceID) then true
  else match tags with
       | None => false
       | Some t =>
           if (map_size (Tags e) =? 0)%nat then false
           else tag_loop (map_to_list (Tags e)) t
       end.

(* ------------------------------------------------------------------ *)
(** ** The orchestrators ([scanner.go])

    A resource scanner is known to the orchestrators only through its
    [Type()] and the outcome of its [Scan]. The goroutines of an errgroup
    run their [Scan] calls outside the mutex and their merges inside it,
    so a run is determined by the order in which the goroutines take the
    mutex: the functions below take that completion order as an argument,
    and the theorems quantify over every permutation of the launch order. *)

Inductive ScanOutcome :=
| ScanOk (sr : ScanResult)
| ScanFailed (err : string).

Record ResourceScanner := {
  sc_Type : string;
  sc_Scan : ScanOutcome
}.

(** A goroutine of an errgroup: its critical section on the shared
    accumulator and the error it returns. *)
Definition Task (A : Type) := A -> A * option string.

(** [g.Go] for each task, in completion order, then [g.Wait()], which
    returns the first non-nil error returned by a goroutine. *)
Fixpoint group_run {A} (tasks : list (Task A)) (acc : A) (first_err : option string)
  : A * option string :=
  match tasks with
  | [] => (acc, first_err)
  | t :: ts =>
      let '(acc', e) := t acc in
      group_run ts acc'
        (match first_err with Some _ => first_err | None => e end)
  end.

(** The goroutine body of [scanRegion] for one scanner. *)
Definition scanner_task (region : string) (scanner : ResourceScanner)
  : Task ScanResult := fun result =>
  match sc_Scan scanner with
  | ScanFailed err =>
      ({| Findings := Findings result;
          Errors := Errors result ++
                      [region +:+ "/" +:+ sc_Type scanner +:+ ": " +:+ err];
          ResourcesScanned := ResourcesScanned result;
          RegionsScanned := RegionsScanned result |}, None)
  | ScanOk sr =>
      ({| Findings := Findings result ++ Findings sr;
          Errors := Errors result;
          ResourcesScanned := wrap64 (ResourcesScanned result + ResourcesScanned sr);
          RegionsScanned := RegionsScanned result |}, None)
  end.

Inductive RegionOutcome :=
| RegionOk (result : ScanResult)
| RegionErr (err : string).

(** [scanRegion]; [done] lists the region's scanners (from
    [buildScanners]) in the order their goroutines complete. *)
Definition scanRegion (region : string) (done : list ResourceScanner)
  : RegionOutcome :=
  match group_run (map (scanner_task region) done) emptyResult None with
  | (_, Some err) => RegionErr err
  | (result, None) => RegionOk result
  end.

Record MultiRegionScanner := {
  msr_regions : list string;
  msr_concurrency : Z;
  msr_scanConfig : ScanConfig
}.

(** [NewMultiRegionScanner] (the AWS client handle is not modelled). *)
Definition NewMultiRegionScanner (regions : list string) (concurrency : Z)
  (scanCfg : ScanConfig) : MultiRegionScanner :=
  let concurrency := if concurrency <=? 0 then 4 else concurrency in
  {| msr_regions := regions;
     msr_concurrency := concurrency;
     msr_scanConfig := scanCfg |}.

(** The goroutine body of [ScanAll] for one region; [scanRegionFn] is the
    outcome of [s.scanRegion(ctx, region)]. *)
Definition region_task (scanRegionFn : string -> RegionOutcome) (region : string)
  : Task ScanResult := fun combined =>
  match scanRegionFn region with
  | RegionErr err =>
      ({| Findings := Findings combined;
          Errors := Errors combined ++ [region +:+ ": " +:+ err];
          ResourcesScanned := ResourcesScanned combined;
          RegionsScanned := RegionsScanned combined |}, None)
  | RegionOk result =>
      ({| Findings := Findings combined ++ Findings result;
          Errors := Errors combined ++ Errors result;
          ResourcesScanned :=
            wrap64 (ResourcesScanned combined + ResourcesScanned result);
          RegionsScanned := RegionsScanned combined |}, None)
  end.

(** [ScanAll]; [done] lists the regions in the order their goroutines
    complete. The result is [(nil, err)] or [(&combined, nil)]. *)
Definition ScanAll (s : MultiRegionScanner) (scanRegionFn : string -> RegionOutcome)
  (done : list string) : option ScanResult * option string :=
  match group_run (map (region_task scanRegionFn) done) emptyResult None with
  | (_, Some err) => (None, Some err)
  | (combined, None) =>
      (Some {| Findings := Findings combined;
               Errors := Errors combined;
               ResourcesScanned := ResourcesScanned combined;
               RegionsScanned := Z.of_nat (length (msr_regions s)) |}, None)
  end.

(* ------------------------------------------------------------------ *)
(** ** Notions used by the statements *)

(** The resource ids carried by the sub-queries of one call. *)
Definition callIDs (c : GetMetricDataInput) : list string :=
  map mdq_DimensionValue (gmd_MetricDataQueries c).

(** The arithmetic mean of the samples in [float64]: their sum divided by
    their count, each sample weighing the same. *)
Definition arithmetic_mean (vs : list float) : float :=
  (sum_values vs / float_of_len (length vs))%float.

(** A response as CloudWatch gives it: every result carries the id of one
    of the call's sub-queries, and no id comes twice. *)
Definition wf_response (c : GetMetricDataInput) (rs : list MetricDataResult) : Prop :=
  NoDup (map mdr_Id rs) /\
  Forall (fun r => exists q, q ∈ gmd_MetricDataQueries c /\ mdr_Id r = Some (mdq_Id q)) rs.

Definition wf_client (client : CloudWatchAPI) : Prop :=
  forall n c rs, client n c = CallOk rs -> wf_response c rs.

(** A tag predicate of [e] that matches the tag map [t]. *)
Definition tag_match (e : ExcludeConfig) (t : gmap string string) : Prop :=
  exists k v tagVal, Tags e !! k = Some v /\ t !! k = Some tagVal /\
                     (v = ""%string \/ tagVal = v).

(** A scanner whose [Scan] succeeds with [sr]. *)
Definition ok_scanner (t : string) (sr : ScanResult) : ResourceScanner :=
  {| sc_Type := t; sc_Scan := ScanOk sr |}.

(** The exact sum of resource counts. *)
Definition total (zs : list Z) : Z := fold_right Z.add 0 zs.

(** What one scanner's goroutine adds to the region's accumulator. *)
Definition scanner_findings (sc : ResourceScanner) : list Finding :=
  match sc_Scan sc with ScanOk sr => Findings sr | ScanFailed _ => [] end.

Definition scanner_errors (region : string) (sc : ResourceScanner) : list string :=
  match sc_Scan sc with
  | ScanOk _ => []
  | ScanFailed err => [region +:+ "/" +:+ sc_Type sc +:+ ": " +:+ err]
  end.

Definition scanner_count (sc : ResourceScanner) : Z :=
  match sc_Scan sc with ScanOk sr => ResourcesScanned sr | ScanFailed _ => 0 end.

(** What one region's goroutine adds to the top-level accumulator. *)
Definition region_findings (o : RegionOutcome) : list Finding :=
  match o with RegionOk r => Findings r | RegionErr _ => [] end.

Definition region_errors (region : string) (o : RegionOutcome) : list string :=
  match o with
  | RegionOk r => Errors r
  | RegionErr err => [region +:+ ": " +:+ err]
  end.

Definition region_count (o : RegionOutcome) : Z :=
  match o with RegionOk r => ResourcesScanned r | RegionErr _ => 0 end.

(* ------------------------------------------------------------------ *)
(** ** Concrete inputs *)

(** A CloudWatch stand-in that answers every sub-query with the samples
    [vs], and rejects a request whose sub-query ids repeat, as the service
    does. *)
Definition cw_client (vs : list float) : CloudWatchAPI := fun _ c =>
  if decide (NoDup (map mdq_Id (gmd_MetricDataQueries c)))
  then CallOk (map (fun q => {| mdr_Id := Some (mdq_Id q); mdr_Values := vs |})
                   (gmd_MetricDataQueries c))
  else CallErr "ValidationError: duplicate query ids".

(** A client whose every call fails. *)
Definition failing_client : CloudWatchAPI := fun _ _ => CallErr "Throttling".

(** A client answering with a result labelled [m-1]. *)
Definition neg_id_client : CloudWatchAPI := fun _ _ =>
  CallOk [{| mdr_Id := Some "m-1"; mdr_Values := [1%float] |}].

(** 501 distinct instance ids. *)
Definition ids501 : list string := map (fun k => "i-" +:+ itoa k) (seq 0 501).

(** [time.Now()] of the concrete runs, and a week of lookback. *)
Definition now0 : Z := 1700000000 * 10 ^ 9.
Definition start0 : Z := now0 + wrap64 (wrap64 (- 7 * 24) * hour_ns).

Definition ec2_cpu (stat : string) (ids : list string) (client : CloudWatchAPI)
  : list GetMetricDataInput * FetchOutcome :=
  fetchMetric client "AWS/EC2" "CPUUtilization" "InstanceId" ids 7 stat now0.

Definition outcome_map (o : FetchOutcome) : gmap string float :=
  match o with FetchOk m => m | _ => ∅ end.

(** The one call made for the single instance ["i-1"], its sub-query and
    the result [cw_client [10;20;30]] gives for it. *)
Definition call_i1 (stat : string) : GetMetricDataInput :=
  {| gmd_MetricDataQueries :=
       buildQueries "AWS/EC2" "CPUUtilization" "InstanceId" stat ["i-1"];
     gmd_StartTime := start0; gmd_EndTime := now0 |}.

Definition query_i1 (stat : string) : MetricDataQuery :=
  {| mdq_Id := "m0"; mdq_Namespace := "AWS/EC2"; mdq_MetricName := "CPUUtilization";
     mdq_DimensionName := "InstanceId"; mdq_DimensionValue := "i-1";
     mdq_Period := metricPeriodSeconds; mdq_Stat := stat |}.

Definition samples_10_20_30 : list float := [10%float; 20%float; 30%float].

Definition result_i1 : MetricDataResult :=
  {| mdr_Id := Some "m0"; mdr_Values := samples_10_20_30 |}.

(** A client that answers the first call as [cw_client] with the samples
    [10, 20, 30] and fails every later call. *)
Definition second_call_fails : CloudWatchAPI := fun k c =>
  match k with
  | O => cw_client samples_10_20_30 k c
  | S _ => CallErr "Throttling"
  end.

(** A finding and a scanner result for the concrete runs. *)
Definition idle_finding : Finding :=
  {| f_ID := "IDLE_EC2"; f_Severity := "high"; f_ResourceType := "ec2";
     f_ResourceID := "i-1"; f_ResourceName := ""; f_Region := "us-east-1";
     f_Message := "idle"; f_EstimatedMonthlyWaste := 30%float;
     f_Metadata := ∅ |}.

Definition ec2_result : ScanResult :=
  {| Findings := [idle_finding]; Errors := []; ResourcesScanned := 3;
     RegionsScanned := 0 |}.

(** A result that carries one error entry. *)
Definition partial_result : ScanResult :=
  {| Findings := []; Errors := ["ec2: memory metrics unavailable"];
     ResourcesScanned := 1; RegionsScanned := 0 |}.

Definition denied_scanner : ResourceScanner :=
  {| sc_Type := "ebs"; sc_Scan := ScanFailed "AccessDenied" |}.

Definition config0 : ScanConfig :=
  {| IdleDays := 7; StaleDays := 90; MinMonthlyCost := 1%float;
     IdleCPUThreshold := 5%float; HighMemoryThreshold := 50%float;
     StoppedThresholdDays := 30; NATGWLowTrafficGB := 1%float;
     Exclude := {| ResourceIDs := ∅; Tags := ∅ |} |}.

(** Two regions, built with a zero concurrency cap. *)
Definition two_regions : MultiRegionScanner :=
  NewMultiRegionScanner ["us-east-1"; "eu-west-1"] 0 config0.

(** [us-east-1] fails as a whole; [eu-west-1] yields [ec2_result]. *)
Definition one_region_down (region : string) : RegionOutcome :=
  if String.eqb region "us-east-1" then RegionErr "context deadline exceeded"
  else RegionOk ec2_result.

(** Every scanner of a region after the context is cancelled. *)
Definition cancelled_scanners : list ResourceScanner :=
  [{| sc_Type := "ec2"; sc_Scan := ScanFailed "context canceled" |};
   {| sc_Type := "ebs"; sc_Scan := ScanFailed "context canceled" |}].

(* ------------------------------------------------------------------ *)
(** ** Resource tags ([types.go]) *)

(** [ec2types.Tag] and [rdstypes.Tag]: a [*string] key and value. *)
Record Ec2Tag := {
  ec2tag_Key : option string;
  ec2tag_Value : option string
}.

Record RdsTag := {
  rdstag_Key : option string;
  rdstag_Value : option string
}.

(** The loop body of [ec2TagsToMap]. *)
Definition ec2_tag_step (m : gmap string string) (t : Ec2Tag) : gmap string string :=
  match ec2tag_Key t with
  | Some k =>
      let v := match ec2tag_Value t with Some v => v | None => ""%string end in
      <[k := v]> m
  | None => m
  end.

(** [ec2TagsToMap]; [None] is the [nil] map. *)
Definition ec2TagsToMap (tags : list Ec2Tag) : option (gmap string string) :=
  if (length tags =? 0)%nat then None else Some (fold_left ec2_tag_step tags ∅).

(** The loop body of [rdsTagsToMap]. *)
Definition rds_tag_step (m : gmap string string) (t : RdsTag) : gmap string string :=
  match rdstag_Key t with
  | Some k =>
      let v := match rdstag_Value t with Some v => v | None => ""%string end in
      <[k := v]> m
  | None => m
  end.

(** [rdsTagsToMap]; [None] is the [nil] map. *)
Definition rdsTagsToMap (tags : list RdsTag) : option (gmap string string) :=
  if (length tags =? 0)%nat then None else Some (fold_left rds_tag_step tags ∅).

(** [deref] of [ec2.go]: a [nil] string reads as [""]. *)
Definition deref (s : option string) : string :=
  match s with Some v => v | None => ""%string end.

(* ------------------------------------------------------------------ *)
(** ** Exclusion tags of the configuration file ([config.go]) *)

(** [strings.Cut(s, "=")]: the text before and after the first ["="],
    and whether there is one; without one, [(s, "", false)]. *)
Fixpoint Cut_eq (s : string) : string * string * bool :=
  match s with
  | EmptyString => (EmptyString, EmptyString, false)
  | String c t =>
      if Ascii.eqb c "="%char then (EmptyString, t, true)
      else let '(before, after, found) := Cut_eq t in (String c before, after, found)
  end.

(** The loop body of [Exclude.ParseTags]. *)
Definition parse_tag_step (m : gmap string string) (s : string) : gmap string string :=
  let '(k, v, ok) := Cut_eq s in
  if ok then <[k := v]> m else <[s := ""%string]> m.

(** [Exclude.ParseTags]; [None] is the [nil] map. *)
Definition ParseTags (tags : list string) : option (gmap string string) :=
  if (length tags =? 0)%nat then None else Some (fold_left parse_tag_step tags ∅).

(** Whether a string contains no ["="]. *)
Fixpoint no_equals (s : string) : bool :=
  match s with
  | EmptyString => true
  | String c t => negb (Ascii.eqb c "="%char) && no_equals t
  end.

(** The failure entries a region's scanners leave in its [Errors], in
    the order the scanners complete. *)
Definition scanner_failures (region : string) (done : list ResourceScanner)
  : list string :=
  omap (fun sc => match sc_Scan sc with
                  | ScanFailed err => Some (region +:+ "/" +:+ sc_Type sc +:+ ": " +:+ err)
                  | ScanOk _ => None
                  end) done.

(** The results of a region's successful scanners, in completion order. *)
Definition scanner_successes (done : list ResourceScanner) : list ScanResult :=
  omap (fun sc => match sc_Scan sc with ScanOk sr => Some sr | ScanFailed _ => None end)
    done.

(** A client answering every call with the one result [m0 = [10;20;30]]. *)
Definition m0_client : CloudWatchAPI := fun _ _ => CallOk [result_i1].

(* ================================================================== *)
(** * Proofs *)

(* ------------------------------------------------------------------ *)
(** ** [batchIDs] *)

Section BatchLoop.

Variables (ids : list string) (size : nat).
Hypothesis size_pos : (0 < size)%nat.

Lemma batch_loop_concat (f i : nat) :
  (length ids <= i + f * size)%nat ->
  concat (batch_loop f ids size i) = drop i ids.
Proof.
  revert i; induction f as [|f IH]; intros i Hlen; simpl.
  - rewrite drop_ge; [done | lia].
  - destruct (Nat.ltb_spec i (length ids)) as [Hi|Hi].
    + simpl. rewrite IH by lia. unfold slice.
      set (e := if (length ids <? i + size)%nat then length ids else (i + size)%nat).
      assert (Hd : drop (i + size) ids = drop (e - i) (drop i ids)).
      { rewrite drop_drop. subst e.
        destruct (Nat.ltb_spec (length ids) (i + size)).
        - rewrite !drop_ge by lia. done.
        - f_equal. lia. }
      rewrite Hd, take_drop. done.
    + rewrite drop_ge; [done | lia].
Qed.

Lemma batch_loop_sizes (f i : nat) :
  Forall (fun b => 0 < length b <= size)%nat (batch_loop f ids size i).
Proof.
  revert i; induction f as [|f IH]; intros i; simpl; [constructor|].
  destruct (Nat.ltb_spec i (length ids)) as [Hi|Hi]; [|constructor].
  constructor; [|apply IH].
  unfold slice. rewrite length_take, length_drop.
  destruct (Nat.ltb_spec (length ids) (i + size)); lia.
Qed.

Lemma batch_loop_length (f i : nat) :
  (length ids <= i + f * size)%nat ->
  length (batch_loop f ids size i) = ((length ids - i + size - 1) / size)%nat.
Proof.
  revert i; induction f as [|f IH]; intros i Hlen; simpl.
  - symmetry. apply Nat.div_small. lia.
  - destruct (Nat.ltb_spec i (length ids)) as [Hi|Hi]; simpl.
    + rewrite IH by lia.
      destruct (Nat.leb_spec (i + size) (length ids)).
      * replace (length ids - i + size - 1)%nat
          with ((length ids - (i + size) + size - 1) + 1 * size)%nat by lia.
        rewrite Nat.div_add by lia. lia.
      * rewrite (Nat.div_small (length ids - (i + size) + size - 1)) by lia.
        rewrite <- (Nat.div_unique (length ids - i + size - 1) size 1
                      (length ids - i - 1)); lia.
    + symmetry. apply Nat.div_small. lia.
Qed.

End BatchLoop.

Lemma batchIDs_500 (ids : list string) :
  concat (batchIDs ids maxMetricDataQueries) = ids /\
  Forall (fun b => 0 < length b <= 500)%nat (batchIDs ids maxMetricDataQueries) /\
  length (batchIDs ids maxMetricDataQueries) = ((length ids + 499) / 500)%nat.
Proof.
  unfold batchIDs.
  change (if maxMetricDataQueries <=? 0 then maxMetricDataQueries
          else maxMetricDataQueries) with 500.
  change (Z.to_nat 500) with 500%nat.
  split; [|split].
  - rewrite batch_loop_concat by lia. done.
  - apply batch_loop_sizes; lia.
  - rewrite batch_loop_length by lia. f_equal. lia.
Qed.

(* ------------------------------------------------------------------ *)
(** ** The calls of [fetch_batches] *)

Lemma callIDs_buildQueries ns mn dn st b s n :
  callIDs {| gmd_MetricDataQueries := buildQueries ns mn dn st b;
             gmd_StartTime := s; gmd_EndTime := n |} = b.
Proof.
  unfold callIDs, buildQueries. simpl.
  change (mdq_DimensionValue <$> imap (λ i id,
    {| mdq_Id := queryID i; mdq_Namespace := ns; mdq_MetricName := mn;
       mdq_DimensionName := dn; mdq_DimensionValue := id;
       mdq_Period := metricPeriodSeconds; mdq_Stat := st |}) b = b).
  rewrite fmap_imap. simpl.
  change (imap (const id) b = b).
  rewrite imap_const. apply list_fmap_id.
Qed.

Lemma processResults_keys b st rs res res' :
  processResults b st rs res = Some res' ->
  forall key, is_Some (res' !! key) -> is_Some (res !! key) \/ key ∈ b.
Proof.
  revert res; induction rs as [|r rs IH]; intros res Hpr key Hkey; simpl in Hpr.
  - injection Hpr as <-. auto.
  - destruct (mdr_Id r) as [rid|]; [|eauto].
    destruct (sscanf_m_d rid) as [idx|]; [|eauto].
    destruct (Z.of_nat (length b) <=? idx); [eauto|].
    destruct (mdr_Values r) as [|v vs]; [eauto|].
    destruct (go_index b idx) as [k|] eqn:Hk; [|discriminate].
    destruct (IH _ Hpr key Hkey) as [Hin|Hin]; [|auto].
    destruct (decide (k = key)) as [->|Hne].
    + right. unfold go_index in Hk.
      destruct (idx <? 0); [discriminate|].
      eapply list_elem_of_lookup_2; eauto.
    + left. rewrite lookup_insert_ne in Hin by done. done.
Qed.

Section FetchBatches.

Variables (client : CloudWatchAPI) (ns mn dn st : string) (s n : Z).

Lemma fetch_batches_calls (batches : list (list string)) k res :
  let '(calls, out) := fetch_batches client k ns mn dn st s n batches res in
  map callIDs calls = take (length calls) batches /\
  (length calls <= length batches)%nat.
Proof.
  revert k res; induction batches as [|b rest IH]; intros k res; simpl; [done|].
  destruct (client k _) as [rs|e]; simpl.
  - destruct (processResults b st rs res) as [res'|]; simpl.
    + specialize (IH (S k) res').
      destruct (fetch_batches client (S k) ns mn dn st s n rest res') as [calls out].
      destruct IH as [IH1 IH2]. simpl.
      rewrite callIDs_buildQueries, IH1. split; [done | lia].
    + rewrite callIDs_buildQueries. split; [done | lia].
  - rewrite callIDs_buildQueries. split; [done | lia].
Qed.

Lemma fetch_batches_ok (batches : list (list string)) k res calls m :
  fetch_batches client k ns mn dn st s n batches res = (calls, FetchOk m) ->
  length calls = length batches /\
  forall key, is_Some (m !! key) -> is_Some (res !! key) \/ key ∈ concat batches.
Proof.
  revert k res calls; induction batches as [|b rest IH]; intros k res calls Hf;
    simpl in Hf.
  - injection Hf as <- <-. split; [done|]. auto.
  - destruct (client k _) as [rs|e]; [|discriminate].
    destruct (processResults b st rs res) as [res'|] eqn:Hpr; [|discriminate].
    destruct (fetch_batches client (S k) ns mn dn st s n rest res')
      as [calls' out] eqn:Hrest.
    injection Hf as <- ->.
    destruct (IH _ _ _ Hrest) as [Hl Hkeys]. split; [simpl; lia|].
    intros key Hkey. simpl. rewrite elem_of_app.
    destruct (Hkeys key Hkey) as [H|H]; [|auto].
    destruct (processResults_keys _ _ _ _ _ Hpr key H); auto.
Qed.

Lemma fetch_batches_err (batches : list (list string)) k res j c e :
  let '(calls, out) := fetch_batches client k ns mn dn st s n batches res in
  calls !! j = Some c -> client (k + j)%nat c = CallErr e ->
  out = FetchErr ("get metric data (" +:+ ns +:+ "/" +:+ mn +:+ "): " +:+ e).
Proof.
  revert k res j; induction batches as [|b rest IH]; intros k res j; simpl;
    [discriminate|].
  destruct (client k _) as [rs|e'] eqn:Hc.
  - destruct (processResults b st rs res) as [res'|]; simpl.
    + specialize (IH (S k) res').
      destruct (fetch_batches client (S k) ns mn dn st s n rest res') as [calls out].
      destruct j as [|j]; simpl; intros Hj Hcall.
      * injection Hj as <-. rewrite Nat.add_0_r, Hc in Hcall. discriminate.
      * apply (IH j Hj). rewrite <- Hcall. f_equal. lia.
    + destruct j as [|j]; simpl; intros Hj Hcall; [|discriminate].
      injection Hj as <-. rewrite Nat.add_0_r, Hc in Hcall. discriminate.
  - destruct j as [|j]; simpl; intros Hj Hcall; [|discriminate].
    injection Hj as <-. rewrite Nat.add_0_r, Hc in Hcall. congruence.
Qed.

Lemma fetch_batches_prefix_ok (batches : list (list string)) k res :
  let '(calls, out) := fetch_batches client k ns mn dn st s n batches res in
  forall j c, calls !! j = Some c -> (S j < length calls)%nat ->
  exists rs, client (k + j)%nat c = CallOk rs.
Proof.
  revert k res; induction batches as [|b rest IH]; intros k res; simpl;
    [intros j c Hj; discriminate|].
  destruct (client k _) as [rs|e'] eqn:Hc.
  - destruct (processResults b st rs res) as [res'|]; simpl.
    + specialize (IH (S k) res').
      destruct (fetch_batches client (S k) ns mn dn st s n rest res') as [calls out].
      intros [|j] c Hj Hlen; simpl in Hj, Hlen.
      * injection Hj as <-. rewrite Nat.add_0_r. eauto.
      * destruct (IH j c Hj ltac:(lia)) as [rs' Hrs']. exists rs'.
        rewrite <- Hrs'. f_equal. lia.
    + intros j c _ Hlen. simpl in Hlen. lia.
  - intros j c _ Hlen. simpl in Hlen. lia.
Qed.

End FetchBatches.

(* ------------------------------------------------------------------ *)
(** ** Sub-query ids: [Sscanf] reads back what [Sprintf] wrote *)

Lemma digit_char_props (d : nat) :
  (d < 10)%nat ->
  (forall t, skip_blanks (String (digit_char d) t) = Some (String (digit_char d) t)) /\
  Ascii.eqb (digit_char d) "-"%char = false /\
  Ascii.eqb (digit_char d) "+"%char = false /\ is_digit (digit_char d) = true /\
  digit_val (digit_char d) = Z.of_nat d.
Proof.
  intros Hd.
  do 10 (destruct d as [|d];
    [split; [intros t; destruct t as [|c1 [|c2 t2]]; reflexivity|];
     vm_compute; repeat split; reflexivity|]).
  lia.
Qed.

Lemma decimal_value_snoc (ds : list Z) (d : Z) :
  decimal_value (ds ++ [d]) = 10 * decimal_value ds + d.
Proof. unfold decimal_value. rewrite fold_left_app. reflexivity. Qed.

Lemma dec_digits_spec (f n : nat) :
  (n <= f)%nat ->
  dec_digits f n <> [] /\ Forall (fun d => d < 10)%nat (dec_digits f n) /\
  decimal_value (map Z.of_nat (dec_digits f n)) = Z.of_nat n.
Proof.
  revert n; induction f as [|f IH]; intros n Hn; cbn [dec_digits].
  - assert (n = 0%nat) as -> by lia.
    split; [done|]. split; [constructor; [lia | constructor]|]. reflexivity.
  - destruct (Nat.ltb_spec n 10) as [Hlt|Hge].
    + split; [done|]. split; [constructor; [lia | constructor]|]. reflexivity.
    + assert (Hq : (n / 10 < n)%nat) by (apply Nat.div_lt; lia).
      destruct (IH (n / 10)%nat) as (_ & Hall & Hval); [lia|].
      repeat split.
      * intros Hnil. apply app_eq_nil in Hnil. destruct Hnil as [_ Hnil]. discriminate.
      * apply Forall_app. split; [done|]. constructor; [|constructor].
        apply Nat.mod_upper_bound. lia.
      * rewrite map_app. cbn [map]. rewrite decimal_value_snoc, Hval.
        pose proof (Nat.div_mod_eq n 10). lia.
Qed.

Lemma leading_digits_string_of_digits (ds : list nat) :
  Forall (fun d => d < 10)%nat ds ->
  leading_digits (string_of_digits ds) = map Z.of_nat ds.
Proof.
  induction 1 as [|d ds Hd _ IH]; cbn [leading_digits string_of_digits map];
    [done|].
  destruct (digit_char_props d Hd) as (_ & _ & _ & -> & ->).
  rewrite IH. done.
Qed.

Lemma sscanf_queryID (i : nat) :
  Z.of_nat i <= int64_max -> sscanf_m_d (queryID i) = Some (Z.of_nat i).
Proof.
  intros Hi. unfold sscanf_m_d, queryID, itoa.
  destruct (dec_digits_spec i i) as (Hne & Hall & Hval); [lia|].
  destruct (dec_digits i i) as [|d ds] eqn:Hds; [done|].
  inversion Hall as [|? ? Hd Hall']; subst.
  destruct (digit_char_props d Hd) as (Hb & Hm & Hp & _ & _).
  cbn -[digit_char leading_digits decimal_value in_int64 skip_blanks].
  rewrite Hb.
  cbn -[digit_char leading_digits decimal_value in_int64 skip_blanks].
  rewrite Hm, Hp.
  change (String (digit_char d) (string_of_digits ds)) with (string_of_digits (d :: ds)).
  rewrite (leading_digits_string_of_digits (d :: ds) Hall). cbn [map].
  change (Z.of_nat d :: map Z.of_nat ds) with (map Z.of_nat (d :: ds)).
  rewrite Hval. unfold in_int64, int64_min.
  replace (- 2 ^ 63 <=? Z.of_nat i) with true by lia.
  replace (Z.of_nat i <=? int64_max) with true by lia.
  reflexivity.
Qed.

Lemma queryID_inj (i j : nat) :
  Z.of_nat i <= int64_max -> Z.of_nat j <= int64_max ->
  queryID i = queryID j -> i = j.
Proof.
  intros Hi Hj Heq.
  pose proof (sscanf_queryID i Hi) as Ei. pose proof (sscanf_queryID j Hj) as Ej.
  rewrite Heq, Ej in Ei. injection Ei. lia.
Qed.

(* ------------------------------------------------------------------ *)
(** ** The results of one batch *)

Lemma processResults_frame b st rs res res' key :
  processResults b st rs res = Some res' -> key ∉ b -> res' !! key = res !! key.
Proof.
  revert res; induction rs as [|r rs IH]; intros res Hpr Hkey; simpl in Hpr.
  - injection Hpr as <-. done.
  - destruct (mdr_Id r) as [rid|]; [|eauto].
    destruct (sscanf_m_d rid) as [idx|]; [|eauto].
    destruct (Z.of_nat (length b) <=? idx); [eauto|].
    destruct (mdr_Values r) as [|v vs]; [eauto|].
    destruct (go_index b idx) as [k|] eqn:Hk; [|discriminate].
    rewrite (IH _ Hpr Hkey). apply lookup_insert_ne.
    intros ->. apply Hkey. unfold go_index in Hk.
    destruct (idx <? 0); [discriminate|]. eapply list_elem_of_lookup_2; eauto.
Qed.

Lemma go_index_of_nat {A} (l : list A) (i : nat) : go_index l (Z.of_nat i) = l !! i.
Proof.
  unfold go_index. destruct (Z.ltb_spec (Z.of_nat i) 0); [lia|].
  rewrite Nat2Z.id. done.
Qed.

Lemma processResults_value b st rs res res' i id :
  NoDup b -> Z.of_nat (length b) <= int64_max ->
  Forall (fun r => exists i', (i' < length b)%nat /\ mdr_Id r = Some (queryID i')) rs ->
  NoDup (map mdr_Id rs) ->
  processResults b st rs res = Some res' -> b !! i = Some id ->
  (forall r, r ∈ rs -> mdr_Id r = Some (queryID i) ->
     res' !! id = match mdr_Values r with
                  | [] => res !! id
                  | vs => Some (aggregate st vs)
                  end) /\
  ((forall r, r ∈ rs -> mdr_Id r <> Some (queryID i)) -> res' !! id = res !! id).
Proof.
  intros Hnd Hlen Hwf. revert res.
  induction Hwf as [|r0 rs (i0 & Hi0 & Hid0) Hwf IH]; intros res Hnd_ids Hpr Hi.
  { simpl in Hpr. injection Hpr as <-. split; [|done].
    intros r Hr. inversion Hr. }
  assert (Hil : (i < length b)%nat) by (apply lookup_lt_is_Some_1; eauto).
  inversion Hnd_ids as [|? ? Hnotin Hnd_ids']; subst.
  simpl in Hpr. rewrite Hid0, sscanf_queryID in Hpr by lia.
  replace (Z.of_nat (length b) <=? Z.of_nat i0) with false in Hpr by lia.
  assert (Hstep : exists res1,
    processResults b st rs res1 = Some res' /\
    (i0 <> i -> res1 !! id = res !! id) /\
    (i0 = i -> res1 !! id = match mdr_Values r0 with
                            | [] => res !! id
                            | vs => Some (aggregate st vs)
                            end)).
  { destruct (mdr_Values r0) as [|v vs] eqn:Hv.
    - exists res. auto.
    - destruct (lookup_lt_is_Some_2 b i0 Hi0) as [k0 Hk0].
      rewrite go_index_of_nat, Hk0 in Hpr.
      eexists. split; [exact Hpr|]. split.
      + intros Hne. apply lookup_insert_ne. intros ->.
        apply Hne. eapply (NoDup_lookup b i0 i); eauto.
      + intros ->. rewrite Hk0 in Hi. injection Hi as ->.
        apply lookup_insert_eq. }
  destruct Hstep as (res1 & Hpr1 & Hne1 & Heq1).
  destruct (IH res1 Hnd_ids' Hpr1 Hi) as [IH1 IH2].
  assert (Hother : forall r, r ∈ rs -> mdr_Id r = Some (queryID i) -> i0 <> i).
  { intros r Hr Hrid ->. apply Hnotin. rewrite Hid0, <- Hrid.
    apply list_elem_of_fmap_2. done. }
  split.
  - intros r Hr Hrid. apply elem_of_cons in Hr as [->|Hr].
    + assert (i0 = i) as <-.
      { rewrite Hid0 in Hrid. apply queryID_inj; [lia | lia | congruence]. }
      rewrite IH2; [auto|].
      intros r' Hr' Hr'id. apply Hnotin. rewrite Hid0, <- Hr'id.
      apply list_elem_of_fmap_2. done.
    + rewrite (IH1 r Hr Hrid), Hne1; [done|]. eauto.
  - intros Hall. rewrite IH2 by (intros r Hr; apply Hall; apply elem_of_cons; auto).
    apply Hne1. intros <-. apply (Hall r0); [apply elem_of_cons; auto | done].
Qed.

(* ------------------------------------------------------------------ *)
(** ** The results of all batches *)

Lemma elem_of_concat {A} (x : A) (l : list A) (ls : list (list A)) :
  l ∈ ls -> x ∈ l -> x ∈ concat ls.
Proof.
  rewrite !list_elem_of_In. intros Hl Hx. apply in_concat. eauto.
Qed.

Section FetchValues.

Variables (client : CloudWatchAPI) (ns mn dn st : string) (s n : Z).

Lemma fetch_batches_frame (batches : list (list string)) k res calls m key :
  fetch_batches client k ns mn dn st s n batches res = (calls, FetchOk m) ->
  key ∉ concat batches -> m !! key = res !! key.
Proof.
  revert k res calls; induction batches as [|b rest IH]; intros k res calls Hf Hkey;
    simpl in Hf.
  - injection Hf as <- <-. done.
  - destruct (client k _) as [rs|e]; [|discriminate].
    destruct (processResults b st rs res) as [res'|] eqn:Hpr; [|discriminate].
    destruct (fetch_batches client (S k) ns mn dn st s n rest res')
      as [calls' out] eqn:Hrest.
    injection Hf as <- ->. simpl in Hkey. rewrite elem_of_app in Hkey.
    rewrite (IH _ _ _ Hrest) by tauto.
    apply (processResults_frame _ _ _ _ _ _ Hpr). tauto.
Qed.

(** A well-formed response to the call of batch [b] names sub-queries
    [m<i>] with [i] an index of [b]. *)
Lemma wf_response_indices b rs :
  wf_response {| gmd_MetricDataQueries := buildQueries ns mn dn st b;
                 gmd_StartTime := s; gmd_EndTime := n |} rs ->
  NoDup (map mdr_Id rs) /\
  Forall (fun r => exists i', (i' < length b)%nat /\ mdr_Id r = Some (queryID i')) rs.
Proof.
  intros [Hnd Hall]. split; [done|].
  eapply Forall_impl; [exact Hall|]. simpl.
  intros r (q & Hq & Hid). unfold buildQueries in Hq.
  apply elem_of_lookup_imap_1 in Hq as (i' & x & -> & Hx).
  exists i'. split; [|done]. apply lookup_lt_is_Some_1. eauto.
Qed.

Lemma fetch_batches_values (batches : list (list string)) k res calls m j c rs q r :
  wf_client client -> NoDup (concat batches) ->
  Forall (fun b => length b <= 500)%nat batches ->
  fetch_batches client k ns mn dn st s n batches res = (calls, FetchOk m) ->
  calls !! j = Some c -> client (k + j)%nat c = CallOk rs ->
  q ∈ gmd_MetricDataQueries c -> r ∈ rs -> mdr_Id r = Some (mdq_Id q) ->
  m !! mdq_DimensionValue q =
    match mdr_Values r with
    | [] => res !! mdq_DimensionValue q
    | vs => Some (aggregate st vs)
    end.
Proof.
  intros Hwf. revert k res calls j.
  induction batches as [|b rest IH];
    intros k res calls j Hnd Hsz Hf Hj Hc Hq Hr Hrid; simpl in Hf.
  { injection Hf as <- <-. done. }
  destruct (client k _) as [rs0|e] eqn:Hc0; [|discriminate].
  destruct (processResults b st rs0 res) as [res1|] eqn:Hpr; [|discriminate].
  destruct (fetch_batches client (S k) ns mn dn st s n rest res1)
    as [calls' out] eqn:Hrest.
  injection Hf as <- ->.
  simpl in Hnd. apply NoDup_app in Hnd as (Hndb & Hdisj & Hndr).
  inversion Hsz as [|? ? Hszb Hsz']; subst.
  destruct j as [|j]; simpl in Hj.
  - injection Hj as <-. rewrite Nat.add_0_r, Hc0 in Hc. injection Hc as <-.
    simpl in Hq. unfold buildQueries in Hq.
    apply elem_of_lookup_imap_1 in Hq as (i & x & -> & Hx). simpl in *.
    destruct (wf_response_indices b rs0 (Hwf _ _ _ Hc0)) as [Hndr0 Hall].
    destruct (processResults_value b st rs0 res res1 i x Hndb) as [Hv _];
      [unfold int64_max; lia | done | done | done | done |].
    rewrite (fetch_batches_frame _ _ _ _ _ _ Hrest).
    + apply Hv; done.
    + apply Hdisj. eapply list_elem_of_lookup_2; eauto.
  - rewrite <- Nat.add_succ_comm in Hc.
    rewrite (IH (S k) res1 calls' j Hndr Hsz' Hrest Hj Hc Hq Hr Hrid).
    destruct (mdr_Values r); [|done].
    apply (processResults_frame _ _ _ _ _ _ Hpr).
    intros Hin. apply (Hdisj _ Hin).
    pose proof (fetch_batches_calls client ns mn dn st s n rest (S k) res1) as Hcalls.
    rewrite Hrest in Hcalls. destruct Hcalls as [Hcalls _].
    assert (Hcj : take (length calls') rest !! j = Some (callIDs c)).
    { rewrite <- Hcalls, list_lookup_fmap, Hj. done. }
    apply lookup_take_Some in Hcj as [Hcj _].
    apply (elem_of_concat _ (callIDs c)).
    + eapply list_elem_of_lookup_2; eauto.
    + unfold callIDs. apply list_elem_of_fmap_2. done.
Qed.

End FetchValues.

(* ------------------------------------------------------------------ *)
(** ** [fetchMetric] *)

Lemma fetchMetric_unfold client ns mn dn ids lb st now :
  ids <> [] ->
  fetchMetric client ns mn dn ids lb st now =
  fetch_batches client 0 ns mn dn st
    (now + wrap64 (wrap64 (- lb * 24) * hour_ns)) now
    (batchIDs ids maxMetricDataQueries) ∅.
Proof.
  intros Hne. unfold fetchMetric.
  destruct ids; [done|]. reflexivity.
Qed.

Lemma cw_client_wf vs : wf_client (cw_client vs).
Proof.
  intros k c rs. unfold cw_client.
  destruct (decide _) as [Hnd|]; [|discriminate]. intros [= <-]. split.
  - rewrite map_map. simpl. rewrite <- (map_map mdq_Id Some).
    change (NoDup (Some <$> map mdq_Id (gmd_MetricDataQueries c))).
    apply NoDup_fmap_2; [apply _ | done].
  - apply Forall_forall. intros r Hr. apply list_elem_of_fmap_1 in Hr as (q & -> & Hq).
    exists q. done.
Qed.

(** Claim C1 (amended). [fetchMetric], behind [FetchAverage] and
    [FetchSum], cuts the [N] ids into [ceil(N/500)] contiguous batches of
    1 to 500 ids that together are the ids in order, and issues one
    [GetMetricData] call per batch, in order, stopping after the first
    failing call (every call before the last one issued succeeded, and a
    failing call is the last one issued): at most [ceil(N/500)] calls.
    When it returns a mapping,
    it issued exactly [ceil(N/500)] calls and every key of the mapping is
    one of the ids. With no ids it issues no call and returns the empty
    mapping without error. *)
Theorem fetchMetric_batching (client : CloudWatchAPI) (ns mn dn : string)
  (ids : list string) (lb : Z) (st : string) (now : Z) :
  let '(calls, out) := fetchMetric client ns mn dn ids lb st now in
  concat (batchIDs ids maxMetricDataQueries) = ids /\
  Forall (fun b => 0 < length b <= 500)%nat (batchIDs ids maxMetricDataQueries) /\
  length (batchIDs ids maxMetricDataQueries) = ((length ids + 499) / 500)%nat /\
  map callIDs calls = take (length calls) (batchIDs ids maxMetricDataQueries) /\
  (length calls <= (length ids + 499) / 500)%nat /\
  (forall j c, calls !! j = Some c -> (S j < length calls)%nat ->
     exists rs, client j c = CallOk rs) /\
  (forall j c e, calls !! j = Some c -> client j c = CallErr e ->
     length calls = S j) /\
  (forall m, out = FetchOk m ->
     length calls = ((length ids + 499) / 500)%nat /\
     forall key, is_Some (m !! key) -> key ∈ ids) /\
  (ids = [] -> calls = [] /\ out = FetchOk ∅).
Proof.
  destruct (batchIDs_500 ids) as (Hcat & Hsz & Hlen).
  destruct ids as [|id0 ids'] eqn:Hids.
  - simpl. repeat split; try done.
    + injection H as <-. intros key [? Hk]. done.
  - rewrite <- Hids in *.
    rewrite fetchMetric_unfold by (subst; done).
    pose proof (fetch_batches_calls client ns mn dn st
                  (now + wrap64 (wrap64 (- lb * 24) * hour_ns)) now
                  (batchIDs ids maxMetricDataQueries) 0 ∅) as Hcalls.
    pose proof (fetch_batches_prefix_ok client ns mn dn st
                  (now + wrap64 (wrap64 (- lb * 24) * hour_ns)) now
                  (batchIDs ids maxMetricDataQueries) 0 ∅) as Hpre.
    destruct (fetch_batches _ _ _ _ _ _ _ _ _ _) as [calls out] eqn:Hf.
    destruct Hcalls as [Hmap Hle].
    split; [done|]. split; [done|]. split; [done|]. split; [done|].
    split; [lia|].
    assert (Hpre' : forall j c, calls !! j = Some c -> (S j < length calls)%nat ->
                    exists rs, client j c = CallOk rs)
      by (intros j c Hj Hl; exact (Hpre j c Hj Hl)).
    split; [exact Hpre'|]. split.
    { intros j c e Hj He. pose proof (lookup_lt_Some _ _ _ Hj) as Hlt.
      destruct (Nat.eq_dec (length calls) (S j)) as [|Hne]; [done|].
      destruct (Hpre' j c Hj ltac:(lia)) as [rs Hrs]. congruence. }
    split.
    + intros m ->. apply fetch_batches_ok in Hf as [Hl Hk]. split; [lia|].
      intros key Hkey. destruct (Hk key Hkey) as [[? H]|H]; [done|].
      rewrite Hcat in H. done.
    + intros ->. discriminate.
Qed.

(** Claim C1, as stated, fails: with 501 ids and a first call that fails,
    [fetchMetric] issues one call, not [ceil(501/500) = 2]. *)
Lemma fetchMetric_calls_cex :
  length (fst (ec2_cpu "Average" ids501 failing_client))
  <> ((length ids501 + 499) / 500)%nat.
Proof. vm_compute. discriminate. Qed.

(** Claim C2. Against a CloudWatch that answers each call with results
    labelled by the call's own sub-query ids, each id at most once, and
    for distinct resource ids: once [fetchMetric] returns a mapping, a
    resource whose sub-query returned a non-empty sample list is mapped
    to the arithmetic mean of the samples under ["Average"]
    ([FetchAverage]) and to their sum under ["Sum"] ([FetchSum]); a
    resource whose sub-query returned no sample is absent from the
    mapping. *)
Theorem fetchMetric_aggregates (client : CloudWatchAPI) (ns mn dn : string)
  (ids : list string) (lb : Z) (st : string) (now : Z)
  (calls : list GetMetricDataInput) (m : gmap string float) (j : nat)
  (c : GetMetricDataInput) (rs : list MetricDataResult)
  (q : MetricDataQuery) (r : MetricDataResult) :
  wf_client client -> NoDup ids ->
  fetchMetric client ns mn dn ids lb st now = (calls, FetchOk m) ->
  calls !! j = Some c -> client j c = CallOk rs ->
  q ∈ gmd_MetricDataQueries c -> r ∈ rs -> mdr_Id r = Some (mdq_Id q) ->
  (mdr_Values r <> [] -> st = "Average"%string ->
     m !! mdq_DimensionValue q = Some (arithmetic_mean (mdr_Values r))) /\
  (mdr_Values r <> [] -> st = "Sum"%string ->
     m !! mdq_DimensionValue q = Some (sum_values (mdr_Values r))) /\
  (mdr_Values r = [] -> m !! mdq_DimensionValue q = None).
Proof.
  intros Hwf Hnd Hf Hj Hc Hq Hr Hrid.
  destruct ids as [|id0 ids'] eqn:Hids.
  { unfold fetchMetric in Hf. simpl in Hf. injection Hf as <- _. done. }
  rewrite <- Hids in *.
  rewrite fetchMetric_unfold in Hf by (subst; done).
  destruct (batchIDs_500 ids) as (Hcat & Hsz & _).
  assert (Hval := fetch_batches_values client ns mn dn st _ now _ 0 ∅ calls m j c rs q r
                    Hwf ltac:(rewrite Hcat; done)
                    ltac:(eapply Forall_impl; [exact Hsz | simpl; lia])
                    Hf Hj Hc Hq Hr Hrid).
  unfold aggregate, arithmetic_mean in *.
  destruct (mdr_Values r) as [|v vs].
  - split; [intros []; done|]. split; [intros []; done|].
    intros _. rewrite Hval. apply lookup_empty.
  - split; [intros _ ->; rewrite Hval; reflexivity|].
    split; [intros _ ->; rewrite Hval; reflexivity | discriminate].
Qed.

(** Witness of C2: one instance ["i-1"] whose sub-query returns the samples
    [10, 20, 30]: [FetchAverage] maps it to [20.0], [FetchSum] to [60.0]. *)
Lemma fetchMetric_aggregates_witness :
  (wf_client (cw_client samples_10_20_30) /\ NoDup ["i-1"%string] /\
   ec2_cpu "Average" ["i-1"%string] (cw_client samples_10_20_30) =
     ([call_i1 "Average"],
      FetchOk (outcome_map (snd (ec2_cpu "Average" ["i-1"%string]
                                   (cw_client samples_10_20_30)))))) /\
  outcome_map (snd (ec2_cpu "Average" ["i-1"%string] (cw_client samples_10_20_30)))
    !! "i-1"%string = Some 20%float /\
  outcome_map (snd (ec2_cpu "Sum" ["i-1"%string] (cw_client samples_10_20_30)))
    !! "i-1"%string = Some 60%float.
Proof.
  split; [split; [apply cw_client_wf | split; [repeat constructor; set_solver | vm_compute; reflexivity]]|].
  split.
  - refine (eq_trans (proj1 (fetchMetric_aggregates (cw_client samples_10_20_30)
      "AWS/EC2" "CPUUtilization" "InstanceId" ["i-1"%string] 7 "Average" now0
      [call_i1 "Average"] _ 0 (call_i1 "Average") [result_i1] (query_i1 "Average")
      result_i1 (cw_client_wf _) _ _ _ _ _ _ _) _ _) _).
    + repeat constructor. set_solver.
    + vm_compute. reflexivity.
    + reflexivity.
    + vm_compute. reflexivity.
    + left.
    + left.
    + reflexivity.
    + discriminate.
    + reflexivity.
    + vm_compute. reflexivity.
  - refine (eq_trans (proj1 (proj2 (fetchMetric_aggregates (cw_client samples_10_20_30)
      "AWS/EC2" "CPUUtilization" "InstanceId" ["i-1"%string] 7 "Sum" now0
      [call_i1 "Sum"] _ 0 (call_i1 "Sum") [result_i1] (query_i1 "Sum")
      result_i1 (cw_client_wf _) _ _ _ _ _ _ _)) _ _) _).
    + repeat constructor. set_solver.
    + vm_compute. reflexivity.
    + reflexivity.
    + vm_compute. reflexivity.
    + left.
    + left.
    + reflexivity.
    + discriminate.
    + reflexivity.
    + vm_compute. reflexivity.
Defined.

(** Claim C3. If a [GetMetricData] call issued by [fetchMetric] fails, the
    whole fetch ends in an error (wrapping the call's error) and returns
    no mapping, whatever earlier batches produced. *)
Theorem fetchMetric_error_aborts (client : CloudWatchAPI) (ns mn dn : string)
  (ids : list string) (lb : Z) (st : string) (now : Z)
  (calls : list GetMetricDataInput) (out : FetchOutcome) (j : nat)
  (c : GetMetricDataInput) (e : string) :
  fetchMetric client ns mn dn ids lb st now = (calls, out) ->
  calls !! j = Some c -> client j c = CallErr e ->
  out = FetchErr ("get metric data (" +:+ ns +:+ "/" +:+ mn +:+ "): " +:+ e).
Proof.
  intros Hf Hj Hc.
  destruct ids as [|id0 ids'] eqn:Hids.
  { unfold fetchMetric in Hf. simpl in Hf. injection Hf as <- _. done. }
  rewrite <- Hids in *.
  rewrite fetchMetric_unfold in Hf by (subst; done).
  pose proof (fetch_batches_err client ns mn dn st
                (now + wrap64 (wrap64 (- lb * 24) * hour_ns)) now
                (batchIDs ids maxMetricDataQueries) 0 ∅ j c e) as H.
  rewrite Hf in H. apply H; done.
Qed.

(** Witness of C3: 501 ids, two batches; the first call succeeds with
    one result of samples per id of the first batch, the second call
    fails, and the fetch ends in the second call's error. *)
Lemma fetchMetric_error_aborts_witness :
  (exists rs, second_call_fails 0%nat
                (default (call_i1 "Average") (fst (ec2_cpu "Average" ids501 second_call_fails) !! 0%nat)) = CallOk rs /\
              length rs = 500%nat /\
              Forall (fun r => mdr_Values r = samples_10_20_30) rs) /\
  ((ec2_cpu "Average" ids501 second_call_fails) = (fst (ec2_cpu "Average" ids501 second_call_fails), snd (ec2_cpu "Average" ids501 second_call_fails)) /\
   fst (ec2_cpu "Average" ids501 second_call_fails) !! 1%nat =
     Some (default (call_i1 "Average") (fst (ec2_cpu "Average" ids501 second_call_fails) !! 1%nat)) /\
   second_call_fails 1%nat (default (call_i1 "Average") (fst (ec2_cpu "Average" ids501 second_call_fails) !! 1%nat)) =
     CallErr "Throttling") /\
  snd (ec2_cpu "Average" ids501 second_call_fails) = FetchErr "get metric data (AWS/EC2/CPUUtilization): Throttling".
Proof.
  split.
  { exists (match second_call_fails 0%nat
                    (default (call_i1 "Average") (fst (ec2_cpu "Average" ids501 second_call_fails) !! 0%nat)) with
            | CallOk rs => rs | CallErr _ => [] end).
    split; [vm_compute; reflexivity|]. split; [vm_compute; reflexivity|].
    apply Forall_forall. intros r Hr. vm_compute in Hr.
    repeat (apply elem_of_cons in Hr as [->|Hr]; [reflexivity|]).
    by apply elem_of_nil in Hr. }
  split; [split; [reflexivity | split; [vm_compute; reflexivity | reflexivity]]|].
  apply (fetchMetric_error_aborts second_call_fails "AWS/EC2" "CPUUtilization"
           "InstanceId" ids501 7 "Average" now0
           (fst (ec2_cpu "Average" ids501 second_call_fails))
           (snd (ec2_cpu "Average" ids501 second_call_fails)) 1
           (default (call_i1 "Average") (fst (ec2_cpu "Average" ids501 second_call_fails) !! 1%nat))).
  - reflexivity.
  - vm_compute. reflexivity.
  - reflexivity.
Defined.

(** Claim C8 (code bug). [fetchMetric] skips a result whose index is
    [>= len(batch)] but not one whose index is negative: a result
    labelled [m-1] with samples parses to [-1] and reaches [batch[-1]],
    which panics. *)
Theorem fetchMetric_negative_index_panics :
  sscanf_m_d "m-1" = Some (-1) /\
  snd (ec2_cpu "Average" ["i-1"%string] neg_id_client) = FetchPanic.
Proof. split; vm_compute; reflexivity. Qed.

(* ------------------------------------------------------------------ *)
(** ** errgroup runs and 64-bit sums *)

Lemma group_run_nil_err {A} (tasks : list (Task A)) (acc : A) :
  Forall (fun t => forall a, snd (t a) = None) tasks ->
  group_run tasks acc None = (fold_left (fun a t => fst (t a)) tasks acc, None).
Proof.
  intros Hall. revert acc.
  induction Hall as [|t ts Ht _ IH]; intros acc; simpl; [done|].
  specialize (Ht acc). destruct (t acc) as [a' e]. simpl in Ht. subst e. apply IH.
Qed.

Lemma wrap64_add_l (a b : Z) : wrap64 (wrap64 a + b) = wrap64 (a + b).
Proof.
  unfold wrap64. f_equal.
  replace ((a + 2 ^ 63) mod 2 ^ 64 - 2 ^ 63 + b + 2 ^ 63)
    with ((a + 2 ^ 63) mod 2 ^ 64 + b) by lia.
  rewrite Zplus_mod_idemp_l. f_equal. lia.
Qed.

Lemma total_perm (l1 l2 : list Z) : l1 ≡ₚ l2 -> total l1 = total l2.
Proof. unfold total. induction 1; simpl; lia. Qed.

Lemma concat_map_perm {A B} (f : A -> list B) (l1 l2 : list A) :
  l1 ≡ₚ l2 -> concat (map f l1) ≡ₚ concat (map f l2).
Proof.
  induction 1; simpl.
  - done.
  - by apply Permutation_app_head.
  - rewrite !app_assoc. apply Permutation_app_tail, Permutation_app_comm.
  - by etrans.
Qed.

(* ------------------------------------------------------------------ *)
(** ** [scanRegion] *)

Lemma fold_left_tasks {A B} (f : B -> Task A) (l : list B) (acc : A) :
  fold_left (fun a t => fst (t a)) (map f l) acc =
  fold_left (fun a x => fst (f x a)) l acc.
Proof. revert acc; induction l; intros acc; simpl; auto. Qed.

Lemma scanRegion_fold (region : string) (done : list ResourceScanner) :
  scanRegion region done =
  RegionOk (fold_left (fun a sc => fst (scanner_task region sc a)) done emptyResult).
Proof.
  unfold scanRegion. rewrite group_run_nil_err.
  - rewrite fold_left_tasks. done.
  - apply Forall_forall. intros t Ht. apply list_elem_of_fmap_1 in Ht as (sc & -> & _).
    intros a. unfold scanner_task. destruct (sc_Scan sc); done.
Qed.

Lemma scanner_fold_fields (region : string) (done : list ResourceScanner) acc :
  let r := fold_left (fun a sc => fst (scanner_task region sc a)) done acc in
  Findings r = Findings acc ++ concat (map scanner_findings done) /\
  Errors r = Errors acc ++ concat (map (scanner_errors region) done) /\
  ResourcesScanned r =
    fold_left (fun z sc => match sc_Scan sc with
                           | ScanOk sr => wrap64 (z + ResourcesScanned sr)
                           | ScanFailed _ => z end) done (ResourcesScanned acc).
Proof.
  revert acc; induction done as [|sc done IH]; intros acc; simpl.
  - rewrite !app_nil_r. done.
  - destruct (IH (fst (scanner_task region sc acc))) as (H1 & H2 & H3).
    rewrite H1, H2, H3. unfold scanner_task, scanner_findings, scanner_errors.
    destruct (sc_Scan sc); simpl; repeat split; rewrite <- ?app_assoc; reflexivity.
Qed.

Lemma scanner_count_fold (done : list ResourceScanner) (z : Z) :
  fold_left (fun z sc => match sc_Scan sc with
                         | ScanOk sr => wrap64 (z + ResourcesScanned sr)
                         | ScanFailed _ => z end) done (wrap64 z) =
  wrap64 (z + total (map scanner_count done)).
Proof.
  revert z; induction done as [|sc done IH]; intros z; simpl.
  - by rewrite Z.add_0_r.
  - unfold scanner_count at 1. destruct (sc_Scan sc) as [sr|e].
    + rewrite wrap64_add_l, IH. f_equal; lia.
    + rewrite IH. f_equal; lia.
Qed.

Lemma scanRegion_fields (region : string) (done : list ResourceScanner) :
  exists res, scanRegion region done = RegionOk res /\
    Findings res = concat (map scanner_findings done) /\
    Errors res = concat (map (scanner_errors region) done) /\
    ResourcesScanned res = wrap64 (total (map scanner_count done)).
Proof.
  rewrite scanRegion_fold. eexists. split; [reflexivity|].
  destruct (scanner_fold_fields region done emptyResult) as (H1 & H2 & H3).
  rewrite H1, H2, H3. split; [done|]. split; [done|].
  change (ResourcesScanned emptyResult) with (wrap64 0).
  apply scanner_count_fold.
Qed.

Lemma concat_map_nil {A B} (f : A -> list B) (l : list A) :
  Forall (fun x => f x = []) l -> concat (map f l) = [].
Proof. induction 1 as [|x l Hx _ IH]; simpl; [done|]. by rewrite Hx, IH. Qed.

(** Claim C4. When one scanner of a region fails and the others succeed,
    whatever the order in which their goroutines finish, [scanRegion]
    returns a result and no error; its [Errors] is exactly the one entry
    ["<region>/<type>: <cause>"] (successful scanners' own [Errors] are
    not carried over, see C7), and its [Findings] and [ResourcesScanned]
    are exactly those of the other scanners: the failing one adds none. *)
Theorem scanRegion_one_failing_scanner (region t err : string)
  (oks : list (string * ScanResult)) (done : list ResourceScanner) :
  done ≡ₚ {| sc_Type := t; sc_Scan := ScanFailed err |}
          :: map (fun p => ok_scanner p.1 p.2) oks ->
  exists res, scanRegion region done = RegionOk res /\
    Errors res = [region +:+ "/" +:+ t +:+ ": " +:+ err] /\
    Findings res ≡ₚ concat (map (fun p => Findings p.2) oks) /\
    ResourcesScanned res = wrap64 (total (map (fun p => ResourcesScanned p.2) oks)).
Proof.
  intros Hperm.
  destruct (scanRegion_fields region done) as (res & Hres & HF & HE & HR).
  exists res. split; [done|].
  rewrite HF, HE, HR. split; [|split].
  - assert (Hperr := concat_map_perm (scanner_errors region) _ _ Hperm).
    simpl in Hperr. rewrite map_map in Hperr.
    rewrite (concat_map_nil (fun x => scanner_errors region (ok_scanner x.1 x.2)) oks)
      in Hperr.
    + symmetry in Hperr. apply Permutation_length_1_inv in Hperr. done.
    + apply Forall_forall. intros p _. done.
  - rewrite (concat_map_perm _ _ _ Hperm). simpl. rewrite map_map. done.
  - rewrite (total_perm _ _ (Permutation_map _ Hperm)). simpl.
    rewrite map_map. done.
Qed.

(** Witness of C4: in [us-east-1], the [ec2] scanner finishes first with
    one finding over three resources, then the [ebs] scanner is denied. *)
Lemma scanRegion_one_failing_scanner_witness :
  [ok_scanner "ec2" ec2_result; denied_scanner] ≡ₚ
    {| sc_Type := "ebs"; sc_Scan := ScanFailed "AccessDenied" |}
    :: map (fun p => ok_scanner p.1 p.2) [("ec2"%string, ec2_result)] /\
  exists res, scanRegion "us-east-1" [ok_scanner "ec2" ec2_result; denied_scanner]
                = RegionOk res /\
    Errors res = ["us-east-1" +:+ "/" +:+ "ebs" +:+ ": " +:+ "AccessDenied"] /\
    Findings res ≡ₚ concat (map (fun p => Findings p.2) [("ec2"%string, ec2_result)]) /\
    ResourcesScanned res =
      wrap64 (total (map (fun p => ResourcesScanned p.2) [("ec2"%string, ec2_result)])).
Proof.
  split; [apply perm_swap|].
  apply (scanRegion_one_failing_scanner "us-east-1" "ebs" "AccessDenied"
           [("ec2"%string, ec2_result)]).
  apply perm_swap.
Defined.

(* ------------------------------------------------------------------ *)
(** ** [ScanAll] *)

Lemma ScanAll_fold (s : MultiRegionScanner) (fn : string -> RegionOutcome)
  (done : list string) :
  ScanAll s fn done =
  (Some (let r := fold_left (fun a x => fst (region_task fn x a)) done emptyResult in
         {| Findings := Findings r; Errors := Errors r;
            ResourcesScanned := ResourcesScanned r;
            RegionsScanned := Z.of_nat (length (msr_regions s)) |}), None).
Proof.
  unfold ScanAll. rewrite group_run_nil_err.
  - rewrite fold_left_tasks. done.
  - apply Forall_forall. intros t Ht. apply list_elem_of_fmap_1 in Ht as (x & -> & _).
    intros a. unfold region_task. destruct (fn x); done.
Qed.

Lemma region_fold_fields (fn : string -> RegionOutcome) (done : list string) acc :
  let r := fold_left (fun a x => fst (region_task fn x a)) done acc in
  Findings r = Findings acc ++ concat (map (fun x => region_findings (fn x)) done) /\
  Errors r = Errors acc ++ concat (map (fun x => region_errors x (fn x)) done) /\
  ResourcesScanned r =
    fold_left (fun z x => match fn x with
                          | RegionOk res => wrap64 (z + ResourcesScanned res)
                          | RegionErr _ => z end) done (ResourcesScanned acc).
Proof.
  revert acc; induction done as [|x done IH]; intros acc; simpl.
  - rewrite !app_nil_r. done.
  - destruct (IH (fst (region_task fn x acc))) as (H1 & H2 & H3).
    rewrite H1, H2, H3. unfold region_task, region_findings, region_errors.
    destruct (fn x); simpl; repeat split; rewrite <- ?app_assoc; reflexivity.
Qed.

Lemma region_count_fold (fn : string -> RegionOutcome) (done : list string) (z : Z) :
  fold_left (fun z x => match fn x with
                        | RegionOk res => wrap64 (z + ResourcesScanned res)
                        | RegionErr _ => z end) done (wrap64 z) =
  wrap64 (z + total (map (fun x => region_count (fn x)) done)).
Proof.
  revert z; induction done as [|x done IH]; intros z; simpl.
  - by rewrite Z.add_0_r.
  - destruct (fn x) as [res|e]; simpl.
    + rewrite wrap64_add_l, IH. f_equal; lia.
    + rewrite IH. f_equal; lia.
Qed.

Lemma ScanAll_fields (s : MultiRegionScanner) (fn : string -> RegionOutcome)
  (done : list string) :
  exists res, ScanAll s fn done = (Some res, None) /\
    Findings res = concat (map (fun x => region_findings (fn x)) done) /\
    Errors res = concat (map (fun x => region_errors x (fn x)) done) /\
    ResourcesScanned res = wrap64 (total (map (fun x => region_count (fn x)) done)) /\
    RegionsScanned res = Z.of_nat (length (msr_regions s)).
Proof.
  rewrite ScanAll_fold. eexists. split; [reflexivity|].
  cbv zeta. cbn [Findings Errors ResourcesScanned RegionsScanned].
  destruct (region_fold_fields fn done emptyResult) as (H1 & H2 & H3).
  rewrite H1, H2, H3. split; [done|]. split; [done|]. split; [|done].
  change (ResourcesScanned emptyResult) with (wrap64 0).
  apply region_count_fold.
Qed.

Lemma map_ext_oks {B} (fn : string -> RegionOutcome) (oks : list (string * ScanResult))
  (f : string * ScanResult -> RegionOutcome -> B) :
  Forall (fun p => fn p.1 = RegionOk p.2) oks ->
  map (fun p => f p (fn p.1)) oks = map (fun p => f p (RegionOk p.2)) oks.
Proof.
  intros Hoks. apply map_ext_Forall. eapply Forall_impl; [exact Hoks|].
  intros p Hp. simpl. by rewrite Hp.
Qed.

(** Claim C5. When one region [bad] among the regions of [s] fails as a
    whole (its [scanRegion] returns an error) and the others succeed,
    whatever the order in which the goroutines finish, [ScanAll] returns a
    result whose [Errors] is the failed region's one entry
    ["<region>: <cause>"] next to the other regions' own errors, whose
    [Findings] and [ResourcesScanned] are exactly those of the other
    regions, and whose [RegionsScanned] is the number of regions,
    the failed one included. *)
Theorem ScanAll_one_failing_region (s : MultiRegionScanner)
  (scanRegionFn : string -> RegionOutcome) (bad err : string)
  (oks : list (string * ScanResult)) (done : list string) :
  done ≡ₚ msr_regions s ->
  done ≡ₚ bad :: map fst oks ->
  scanRegionFn bad = RegionErr err ->
  Forall (fun p => scanRegionFn p.1 = RegionOk p.2) oks ->
  exists combined, ScanAll s scanRegionFn done = (Some combined, None) /\
    Errors combined ≡ₚ (bad +:+ ": " +:+ err) :: concat (map (fun p => Errors p.2) oks) /\
    Findings combined ≡ₚ concat (map (fun p => Findings p.2) oks) /\
    ResourcesScanned combined = wrap64 (total (map (fun p => ResourcesScanned p.2) oks)) /\
    RegionsScanned combined = Z.of_nat (length (msr_regions s)) /\
    length (msr_regions s) = S (length oks).
Proof.
  intros Hregions Hperm Hbad Hoks.
  destruct (ScanAll_fields s scanRegionFn done) as (res & Hres & HF & HE & HR & HN).
  exists res. split; [done|].
  rewrite HF, HE, HR, HN. split; [|split; [|split; [|split]]].
  - rewrite (concat_map_perm _ _ _ Hperm). cbn [map concat].
    rewrite Hbad. cbn [region_errors app]. apply perm_skip, Permutation_refl'.
    f_equal. rewrite map_map.
    apply (map_ext_oks scanRegionFn oks (fun p o => region_errors p.1 o) Hoks).
  - rewrite (concat_map_perm _ _ _ Hperm). cbn [map concat].
    rewrite Hbad. cbn [region_findings app]. apply Permutation_refl'.
    f_equal. rewrite map_map.
    apply (map_ext_oks scanRegionFn oks (fun _ o => region_findings o) Hoks).
  - rewrite (total_perm _ _ (Permutation_map _ Hperm)). cbn [map total fold_right].
    rewrite Hbad. cbn [region_count]. rewrite Z.add_0_l, map_map.
    do 2 f_equal.
    apply (map_ext_oks scanRegionFn oks (fun _ o => region_count o) Hoks).
  - done.
  - rewrite <- (Permutation_length Hregions), (Permutation_length Hperm).
    simpl. rewrite length_map. done.
Qed.

(** Witness of C5: [us-east-1] fails with a deadline error after
    [eu-west-1] has finished with [ec2_result]. *)
Lemma ScanAll_one_failing_region_witness :
  (["eu-west-1"%string; "us-east-1"%string] ≡ₚ msr_regions two_regions /\
   ["eu-west-1"%string; "us-east-1"%string] ≡ₚ
     "us-east-1"%string :: map fst [("eu-west-1"%string, ec2_result)] /\
   one_region_down "us-east-1" = RegionErr "context deadline exceeded" /\
   Forall (fun p => one_region_down p.1 = RegionOk p.2) [("eu-west-1"%string, ec2_result)]) /\
  exists combined,
    ScanAll two_regions one_region_down ["eu-west-1"%string; "us-east-1"%string]
      = (Some combined, None) /\
    Errors combined ≡ₚ ("us-east-1" +:+ ": " +:+ "context deadline exceeded")
       :: concat (map (fun p => Errors p.2) [("eu-west-1"%string, ec2_result)]) /\
    Findings combined ≡ₚ concat (map (fun p => Findings p.2) [("eu-west-1"%string, ec2_result)]) /\
    ResourcesScanned combined =
      wrap64 (total (map (fun p => ResourcesScanned p.2) [("eu-west-1"%string, ec2_result)])) /\
    RegionsScanned combined = Z.of_nat (length (msr_regions two_regions)) /\
    length (msr_regions two_regions) = S (length [("eu-west-1"%string, ec2_result)]).
Proof.
  split.
  - split; [apply perm_swap|]. split; [apply perm_swap|].
    split; [reflexivity|]. constructor; [reflexivity|constructor].
  - apply (ScanAll_one_failing_region two_regions one_region_down "us-east-1"
             "context deadline exceeded" [("eu-west-1"%string, ec2_result)]).
    + apply perm_swap.
    + apply perm_swap.
    + reflexivity.
    + constructor; [reflexivity|constructor].
Defined.

(** Claim C6, as stated, fails: after a cancellation every scanner of both
    regions fails with [context canceled], and [ScanAll] still returns the
    merged result with a [nil] error; the cancellations are only entries
    of [Errors]. *)
Lemma ScanAll_cancelled_cex :
  ScanAll two_regions (fun r => scanRegion r cancelled_scanners)
    ["us-east-1"%string; "eu-west-1"%string] =
  (Some {| Findings := [];
           Errors := ["us-east-1/ec2: context canceled"; "us-east-1/ebs: context canceled";
                      "eu-west-1/ec2: context canceled"; "eu-west-1/ebs: context canceled"];
           ResourcesScanned := 0; RegionsScanned := 2 |}, None).
Proof. vm_compute. reflexivity. Qed.

Lemma scanner_fold_regions (region : string) (done : list ResourceScanner) acc :
  RegionsScanned (fold_left (fun a sc => fst (scanner_task region sc a)) done acc) =
  RegionsScanned acc.
Proof.
  revert acc; induction done as [|sc done IH]; intros acc; simpl; [done|].
  rewrite IH. unfold scanner_task. by destruct (sc_Scan sc).
Qed.

Lemma scanner_errors_failures (region : string) (done : list ResourceScanner) :
  concat (map (scanner_errors region) done) = scanner_failures region done.
Proof.
  unfold scanner_failures. induction done as [|sc done IH]; simpl; [done|].
  unfold scanner_errors at 1. simpl. destruct (sc_Scan sc); simpl; by rewrite IH.
Qed.

Lemma scanner_findings_successes (done : list ResourceScanner) :
  concat (map scanner_findings done) = concat (map Findings (scanner_successes done)).
Proof.
  unfold scanner_successes. induction done as [|sc done IH]; simpl; [done|].
  unfold scanner_findings at 1. simpl. destruct (sc_Scan sc); simpl; by rewrite IH.
Qed.

Lemma scanner_count_successes (done : list ResourceScanner) :
  total (map scanner_count done) = total (map ResourcesScanned (scanner_successes done)).
Proof.
  unfold scanner_successes, total. induction done as [|sc done IH]; simpl; [done|].
  unfold scanner_count at 1. simpl. destruct (sc_Scan sc); simpl; [f_equal|]; exact IH.
Qed.

Lemma scanRegion_eq (region : string) (done : list ResourceScanner) :
  scanRegion region done =
  RegionOk {| Findings := concat (map Findings (scanner_successes done));
              Errors := scanner_failures region done;
              ResourcesScanned :=
                wrap64 (total (map ResourcesScanned (scanner_successes done)));
              RegionsScanned := 0 |}.
Proof.
  rewrite scanRegion_fold. f_equal.
  destruct (scanner_fold_fields region done emptyResult) as (H1 & H2 & H3).
  pose proof (scanner_fold_regions region done emptyResult) as H4.
  change (ResourcesScanned emptyResult) with (wrap64 0) in H3.
  rewrite scanner_count_fold in H3.
  revert H1 H2 H3 H4.
  destruct (fold_left (fun a sc => fst (scanner_task region sc a)) done emptyResult)
    as [F E R N].
  simpl. intros -> -> -> ->.
  rewrite scanner_findings_successes, scanner_errors_failures, scanner_count_successes.
  done.
Qed.

Lemma wrap64_add_r (a b : Z) : wrap64 (a + wrap64 b) = wrap64 (a + b).
Proof. rewrite Z.add_comm, wrap64_add_l. f_equal. lia. Qed.

Lemma wrap64_total (l : list Z) : wrap64 (total (map wrap64 l)) = wrap64 (total l).
Proof.
  unfold total. induction l as [|x l IH]; simpl; [done|].
  rewrite wrap64_add_l, <- (wrap64_add_r x (fold_right Z.add 0 (map wrap64 l))), IH.
  apply wrap64_add_r.
Qed.

Lemma ScanAll_scanRegion_eq (s : MultiRegionScanner)
  (scanners : string -> list ResourceScanner) (done : list string) :
  exists combined,
    ScanAll s (fun r => scanRegion r (scanners r)) done = (Some combined, None) /\
    Errors combined = concat (map (fun r => scanner_failures r (scanners r)) done) /\
    Findings combined =
      concat (map (fun r => concat (map Findings (scanner_successes (scanners r)))) done) /\
    ResourcesScanned combined =
      wrap64 (total (map (fun r => total (map ResourcesScanned
                                                (scanner_successes (scanners r)))) done)) /\
    RegionsScanned combined = Z.of_nat (length (msr_regions s)).
Proof.
  destruct (ScanAll_fields s (fun r => scanRegion r (scanners r)) done)
    as (res & Hres & HF & HE & HR & HN).
  exists res. split; [done|].
  rewrite HF, HE, HR.
  assert (Hmap : forall B (f : string -> RegionOutcome -> B) (g : string -> B),
             (forall r, f r (scanRegion r (scanners r)) = g r) ->
             map (fun x => f x (scanRegion x (scanners x))) done = map g done).
  { intros B f g Hfg. apply map_ext. done. }
  rewrite (Hmap _ (fun _ o => region_findings o)
             (fun r => concat (map Findings (scanner_successes (scanners r)))))
    by (intros r; rewrite scanRegion_eq; done).
  rewrite (Hmap _ region_errors (fun r => scanner_failures r (scanners r)))
    by (intros r; rewrite scanRegion_eq; done).
  rewrite (Hmap _ (fun _ o => region_count o)
             (fun r => wrap64 (total (map ResourcesScanned (scanner_successes (scanners r))))))
    by (intros r; rewrite scanRegion_eq; done).
  rewrite <- (map_map (fun r => total (map ResourcesScanned (scanner_successes (scanners r))))
                      wrap64).
  rewrite wrap64_total. done.
Qed.

Lemma wrap64_small (z : Z) : int64_min <= z <= int64_max -> wrap64 z = z.
Proof.
  unfold wrap64, int64_min, int64_max. intros Hz.
  rewrite Z.mod_small; [lia|]. change (2 ^ 64) with (2 ^ 63 * 2). lia.
Qed.

Lemma total_nonneg (l : list Z) : Forall (fun z => 0 <= z) l -> 0 <= total l.
Proof. unfold total. induction 1; simpl; lia. Qed.

Lemma total_app (l1 l2 : list Z) : total (l1 ++ l2) = total l1 + total l2.
Proof. unfold total. induction l1; simpl; lia. Qed.

Lemma scanner_acc (region : string) (l : list ResourceScanner) :
  fst (group_run (map (scanner_task region) l) emptyResult None) =
  {| Findings := concat (map Findings (scanner_successes l));
     Errors := scanner_failures region l;
     ResourcesScanned := wrap64 (total (map ResourcesScanned (scanner_successes l)));
     RegionsScanned := 0 |}.
Proof.
  pose proof (scanRegion_eq region l) as H. unfold scanRegion in H. revert H.
  destruct (group_run (map (scanner_task region) l) emptyResult None) as [acc [e|]];
    [discriminate|].
  intros [= ->]. done.
Qed.

(** Claim C6, corrected. [ScanAll] never returns an error, nor does
    [scanRegion]: every goroutine of their errgroups returns [nil], so
    [Wait] returns [nil]. A cancelled context only makes scanners (or
    regions) fail. Whatever the outcomes and the order in which the
    goroutines finish, [scanRegion] turns each failing scanner into one
    entry ["<region>/<type>: <cause>"] of its [Errors], and [ScanAll]
    returns the whole merged result with a [nil] error: every region's
    findings, its errors, a region failing as a whole as one entry
    ["<region>: <cause>"], the resource counts summed (modulo [2^64]) and
    [RegionsScanned] set to the number of regions. Over the regions'
    [scanRegion], the whole scan's [Errors] are exactly the failing
    scanners' entries, region after region. *)
Theorem ScanAll_never_fails (s : MultiRegionScanner)
  (scanRegionFn : string -> RegionOutcome) (scanners : string -> list ResourceScanner)
  (done : list string) :
  (forall region, exists res, scanRegion region (scanners region) = RegionOk res /\
     Errors res = scanner_failures region (scanners region) /\
     Findings res = concat (map Findings (scanner_successes (scanners region))) /\
     ResourcesScanned res =
       wrap64 (total (map ResourcesScanned (scanner_successes (scanners region))))) /\
  (exists combined, ScanAll s scanRegionFn done = (Some combined, None) /\
    Findings combined = concat (map (fun x => region_findings (scanRegionFn x)) done) /\
    Errors combined = concat (map (fun x => region_errors x (scanRegionFn x)) done) /\
    ResourcesScanned combined =
      wrap64 (total (map (fun x => region_count (scanRegionFn x)) done)) /\
    RegionsScanned combined = Z.of_nat (length (msr_regions s))) /\
  (exists combined,
    ScanAll s (fun r => scanRegion r (scanners r)) done = (Some combined, None) /\
    Errors combined = concat (map (fun r => scanner_failures r (scanners r)) done) /\
    Findings combined =
      concat (map (fun r => concat (map Findings (scanner_successes (scanners r)))) done) /\
    ResourcesScanned combined =
      wrap64 (total (map (fun r => total (map ResourcesScanned
                                                (scanner_successes (scanners r)))) done)) /\
    RegionsScanned combined = Z.of_nat (length (msr_regions s))).
Proof.
  split; [|split].
  - intros region. rewrite scanRegion_eq. eexists. split; [reflexivity|]. done.
  - destruct (ScanAll_fields s scanRegionFn done) as (res & Hres & HF & HE & HR & HN).
    exists res. done.
  - apply ScanAll_scanRegion_eq.
Qed.

(** Claim C7. For the scanners of this program, whose successful
    [ScanResult]s carry no [Errors] of their own (none of them sets the
    field) and non-negative counts, and whose counts fit an [int64]:
    [scanRegion] merges every successful scanner's [Findings] (appended
    in completion order) and [ResourcesScanned] (summed exactly), its
    [Errors] hold only the failing scanners' entries, so no part of a
    successful contribution is lost; and the shared accumulator's
    [ResourcesScanned] never decreases as the goroutines merge, one after
    the other. *)
Theorem scanRegion_merges_contributions (region : string) (done : list ResourceScanner) :
  Forall (fun sc => forall sr, sc_Scan sc = ScanOk sr ->
                      Errors sr = [] /\ 0 <= ResourcesScanned sr) done ->
  total (map scanner_count done) <= int64_max ->
  exists res, scanRegion region done = RegionOk res /\
    Findings res = concat (map scanner_findings done) /\
    Errors res = scanner_failures region done /\
    ResourcesScanned res = total (map scanner_count done) /\
    (forall pre post, done = pre ++ post ->
       ResourcesScanned (fst (group_run (map (scanner_task region) pre) emptyResult None))
       <= ResourcesScanned (fst (group_run (map (scanner_task region) done)
                                   emptyResult None))).
Proof.
  intros Hok Hmax.
  assert (Hnn : forall l, Forall (fun sc => forall sr, sc_Scan sc = ScanOk sr ->
                            Errors sr = [] /\ 0 <= ResourcesScanned sr) l ->
                          0 <= total (map scanner_count l)).
  { intros l Hl. apply total_nonneg. apply Forall_map. eapply Forall_impl; [exact Hl|].
    intros sc Hsc. unfold scanner_count. destruct (sc_Scan sc) as [sr|] eqn:E; [|lia].
    apply (Hsc sr E). }
  rewrite scanRegion_eq. eexists. split; [reflexivity|].
  cbn [Findings Errors ResourcesScanned].
  rewrite <- scanner_findings_successes, <- scanner_count_successes.
  split; [done|]. split; [done|].
  pose proof (Hnn done Hok) as H0.
  split; [apply wrap64_small; unfold int64_min; lia|].
  intros pre post ->. rewrite !scanner_acc. cbn [ResourcesScanned].
  rewrite <- !scanner_count_successes.
  apply Forall_app in Hok as [Hpre Hpost].
  pose proof (Hnn pre Hpre). pose proof (Hnn post Hpost).
  rewrite map_app, total_app in *.
  rewrite !wrap64_small by (unfold int64_min; lia). lia.
Qed.

(** Witness of C7: a successful EC2 scanner (three instances, one finding)
    next to a failing EBS scanner. *)
Lemma scanRegion_merges_contributions_witness :
  (Forall (fun sc => forall sr, sc_Scan sc = ScanOk sr ->
                       Errors sr = [] /\ 0 <= ResourcesScanned sr)
     [ok_scanner "ec2" ec2_result; denied_scanner] /\
   total (map scanner_count [ok_scanner "ec2" ec2_result; denied_scanner]) <= int64_max) /\
  exists res, scanRegion "us-east-1" [ok_scanner "ec2" ec2_result; denied_scanner] =
                RegionOk res /\
    Findings res = concat (map scanner_findings [ok_scanner "ec2" ec2_result; denied_scanner]) /\
    Errors res = scanner_failures "us-east-1" [ok_scanner "ec2" ec2_result; denied_scanner] /\
    ResourcesScanned res =
      total (map scanner_count [ok_scanner "ec2" ec2_result; denied_scanner]) /\
    (forall pre post, [ok_scanner "ec2" ec2_result; denied_scanner] = pre ++ post ->
       ResourcesScanned (fst (group_run (map (scanner_task "us-east-1") pre) emptyResult None))
       <= ResourcesScanned (fst (group_run (map (scanner_task "us-east-1")
                                   [ok_scanner "ec2" ec2_result; denied_scanner])
                                   emptyResult None))).
Proof.
  assert (Hok : Forall (fun sc => forall sr, sc_Scan sc = ScanOk sr ->
                          Errors sr = [] /\ 0 <= ResourcesScanned sr)
                  [ok_scanner "ec2" ec2_result; denied_scanner]).
  { constructor; [intros sr [= <-]; split; [reflexivity | cbn; lia]|].
    constructor; [intros sr Hsr; discriminate | constructor]. }
  assert (Hmax : total (map scanner_count [ok_scanner "ec2" ec2_result; denied_scanner])
                 <= int64_max) by (vm_compute; discriminate).
  split; [split; [exact Hok | exact Hmax]|].
  exact (scanRegion_merges_contributions "us-east-1" _ Hok Hmax).
Defined.

(* ------------------------------------------------------------------ *)
(** ** [ShouldExclude] *)

Lemma tag_loop_spec (l : list (string * string)) (t : gmap string string) :
  tag_loop l t = true <->
  exists k v tagVal, (k, v) ∈ l /\ t !! k = Some tagVal /\ (v = ""%string \/ tagVal = v).
Proof.
  induction l as [|[k v] l IH]; simpl.
  - split; [discriminate|]. intros (k & v & tv & Hin & _). by apply elem_of_nil in Hin.
  - assert (Htl : (exists k' v' tv', (k', v') ∈ (k, v) :: l /\ t !! k' = Some tv' /\
                                    (v' = ""%string \/ tv' = v')) <->
                  (exists tv', t !! k = Some tv' /\ (v = ""%string \/ tv' = v)) \/
                  tag_loop l t = true).
    { rewrite IH. split.
      - intros (k' & v' & tv' & Hin & Hk & Hv). apply elem_of_cons in Hin as [Heq|Hin].
        + injection Heq as -> ->. left. eauto.
        + right. exists k', v', tv'. auto.
      - intros [(tv' & Hk & Hv)|(k' & v' & tv' & Hin & Hk & Hv)].
        + exists k, v, tv'. split; [apply elem_of_cons; left; done|]. auto.
        + exists k', v', tv'. split; [apply elem_of_cons; right; done|]. auto. }
    rewrite Htl. destruct (t !! k) as [tv|] eqn:Hk.
    + destruct (String.eqb_spec v "") as [->|Hv]; simpl.
      * split; [intros _; left; eauto | done].
      * destruct (String.eqb_spec tv v) as [->|Htv]; simpl.
        -- split; [intros _; left; eauto | done].
        -- split; [auto|]. intros [(tv' & Heq & [H|H])|H]; [congruence|congruence|done].
    + split; [auto|]. intros [(tv' & Heq & _)|H]; [discriminate|done].
Qed.

Lemma tag_loop_map (m t : gmap string string) :
  tag_loop (map_to_list m) t = true <->
  exists k v tagVal, m !! k = Some v /\ t !! k = Some tagVal /\ (v = ""%string \/ tagVal = v).
Proof.
  rewrite tag_loop_spec.
  split; intros (k & v & tv & H1 & H2 & H3); exists k, v, tv.
  - rewrite elem_of_map_to_list in H1. auto.
  - rewrite elem_of_map_to_list. auto.
Qed.

(** Claim C9. [ShouldExclude] holds exactly when the resource id is in the
    id set (mapped to [true] in [ResourceIDs]) or the tag map is non-nil
    and matched by a tag predicate of the configuration, a predicate with
    an empty value matching any value of its key and one with a value
    matching that value only; with a nil tag map only the id set counts. *)
Theorem ShouldExclude_spec (e : ExcludeConfig) (resourceID : string)
  (tags : option (gmap string string)) :
  (ShouldExclude e resourceID tags = true <->
     ResourceIDs e !! resourceID = Some true \/
     exists t, tags = Some t /\ tag_match e t) /\
  (ShouldExclude e resourceID None = true <-> ResourceIDs e !! resourceID = Some true).
Proof.
  assert (Hid : default false (ResourceIDs e !! resourceID) = true <->
                ResourceIDs e !! resourceID = Some true).
  { destruct (ResourceIDs e !! resourceID) as [[]|]; simpl; split; congruence. }
  assert (Htags : forall t, (if (map_size (Tags e) =? 0)%nat then false
                             else tag_loop (map_to_list (Tags e)) t) = true <->
                            tag_match e t).
  { intros t. unfold tag_match. destruct (Nat.eqb_spec (map_size (Tags e)) 0) as [H0|H0].
    - apply map_size_empty_iff in H0. rewrite H0. split; [discriminate|].
      intros (k & v & tv & Hk & _). rewrite lookup_empty in Hk. discriminate.
    - apply tag_loop_map. }
  unfold ShouldExclude.
  destruct (default false (ResourceIDs e !! resourceID)) eqn:Hd.
  - assert (Hs := proj1 Hid eq_refl). split; split; intros; first [done | left; done].
  - assert (Hn : ResourceIDs e !! resourceID <> Some true)
      by (intros H; apply Hid in H; discriminate).
    split; [|split; [discriminate | intros H; contradiction]].
    destruct tags as [t|].
    + rewrite Htags. split; [intros H; right; eauto|].
      intros [H|(t' & Ht' & H)]; [contradiction|]. injection Ht' as <-. done.
    + split; [discriminate|]. intros [H|(t' & Ht' & _)]; [contradiction|discriminate].
Qed.

(** Claim C10. [NewMultiRegionScanner] always builds a scanner (it has no
    error result): a concurrency cap [<= 0] becomes the default [4], a
    positive cap is kept; the regions and the configuration are kept. *)
Theorem NewMultiRegionScanner_concurrency (regions : list string) (concurrency : Z)
  (cfg : ScanConfig) :
  let s := NewMultiRegionScanner regions concurrency cfg in
  msr_regions s = regions /\ msr_scanConfig s = cfg /\
  ((concurrency <= 0 /\ msr_concurrency s = 4) \/
   (0 < concurrency /\ msr_concurrency s = concurrency)).
Proof.
  simpl. split; [done|]. split; [done|].
  destruct (Z.leb_spec concurrency 0); [left|right]; split; try lia; reflexivity.
Qed.

(* ================================================================== *)
(** * Further properties of the code *)

(* ------------------------------------------------------------------ *)
(** ** [batchIDs] for any batch size *)

(** [batchIDs] with batch size [size] ([500] when [batchSize <= 0]) cuts
    the ids into [ceil(N/size)] non-empty contiguous batches of at most
    [size] ids that concatenate back to the ids; no ids give no batch. *)
Theorem batchIDs_spec (ids : list string) (batchSize : Z) :
  let size := if batchSize <=? 0 then 500 else batchSize in
  concat (batchIDs ids batchSize) = ids /\
  Forall (fun b => (0 < length b)%nat /\ Z.of_nat (length b) <= size)
    (batchIDs ids batchSize) /\
  Z.of_nat (length (batchIDs ids batchSize)) = (Z.of_nat (length ids) + size - 1) / size /\
  (ids = [] -> batchIDs ids batchSize = []).
Proof.
  intros size.
  assert (Hs : 0 < size) by (subst size; destruct (Z.leb_spec batchSize 0); lia).
  change (batchIDs ids batchSize) with (batch_loop (length ids) ids (Z.to_nat size) 0).
  assert (Hn : (0 < Z.to_nat size)%nat) by lia.
  split; [|split; [|split]].
  - rewrite batch_loop_concat by nia. done.
  - eapply Forall_impl; [apply batch_loop_sizes; exact Hn|]. simpl. lia.
  - rewrite batch_loop_length by nia. rewrite Nat2Z.inj_div. f_equal; lia.
  - intros ->. reflexivity.
Qed.

(* ------------------------------------------------------------------ *)
(** ** The requests [fetchMetric] sends *)

Section FetchShape.

Variables (client : CloudWatchAPI) (ns mn dn st : string) (s n : Z).

Lemma fetch_batches_shape (batches : list (list string)) k res j c :
  let '(calls, out) := fetch_batches client k ns mn dn st s n batches res in
  calls !! j = Some c ->
  exists b, batches !! j = Some b /\
    c = {| gmd_MetricDataQueries := buildQueries ns mn dn st b;
           gmd_StartTime := s; gmd_EndTime := n |}.
Proof.
  revert k res j; induction batches as [|b rest IH]; intros k res j; simpl;
    [discriminate|].
  destruct (client k _) as [rs|e].
  - destruct (processResults b st rs res) as [res'|]; simpl.
    + destruct j as [|j].
      * destruct (fetch_batches client (S k) ns mn dn st s n rest res') as [calls out].
        simpl. intros Hj. injection Hj as <-. eauto.
      * specialize (IH (S k) res' j).
        destruct (fetch_batches client (S k) ns mn dn st s n rest res') as [calls out].
        simpl. exact IH.
    + destruct j as [|j]; simpl; intros Hj; [injection Hj as <-; eauto | discriminate].
  - destruct j as [|j]; simpl; intros Hj; [injection Hj as <-; eauto | discriminate].
Qed.

End FetchShape.

Lemma fetchMetric_shape client ns mn dn ids lb st now calls out j c :
  fetchMetric client ns mn dn ids lb st now = (calls, out) ->
  calls !! j = Some c ->
  exists b, batchIDs ids maxMetricDataQueries !! j = Some b /\
    c = {| gmd_MetricDataQueries := buildQueries ns mn dn st b;
           gmd_StartTime := now + wrap64 (wrap64 (- lb * 24) * hour_ns);
           gmd_EndTime := now |}.
Proof.
  intros Hf Hj. destruct ids as [|id0 ids'] eqn:Hids.
  { unfold fetchMetric in Hf. simpl in Hf. injection Hf as <- _. done. }
  rewrite <- Hids in *. rewrite fetchMetric_unfold in Hf by (subst; done).
  pose proof (fetch_batches_shape client ns mn dn st
                (now + wrap64 (wrap64 (- lb * 24) * hour_ns)) now
                (batchIDs ids maxMetricDataQueries) 0 ∅ j c) as H.
  rewrite Hf in H. apply H, Hj.
Qed.

Lemma buildQueries_lookup ns mn dn st b i q :
  buildQueries ns mn dn st b !! i = Some q ->
  b !! i = Some (mdq_DimensionValue q) /\ mdq_Id q = queryID i /\
  mdq_Namespace q = ns /\ mdq_MetricName q = mn /\ mdq_DimensionName q = dn /\
  mdq_Period q = metricPeriodSeconds /\ mdq_Stat q = st.
Proof.
  unfold buildQueries. rewrite list_lookup_imap_Some.
  intros (x & Hx & ->). simpl. auto 10.
Qed.

(** Every [GetMetricData] request of [fetchMetric] carries, for its batch
    of ids, one sub-query per id in batch order: the [i]-th is labelled
    [m<i>], which [Sscanf] reads back as [i], asks for the given metric
    and dimension on the [i]-th id with a one-hour period and the
    requested statistic; the labels of a request are pairwise distinct. *)
Theorem fetchMetric_queries (client : CloudWatchAPI) (ns mn dn : string)
  (ids : list string) (lb : Z) (st : string) (now : Z)
  (calls : list GetMetricDataInput) (out : FetchOutcome) (j : nat)
  (c : GetMetricDataInput) :
  fetchMetric client ns mn dn ids lb st now = (calls, out) ->
  calls !! j = Some c ->
  exists b, batchIDs ids maxMetricDataQueries !! j = Some b /\
    length (gmd_MetricDataQueries c) = length b /\
    NoDup (map mdq_Id (gmd_MetricDataQueries c)) /\
    forall i q, gmd_MetricDataQueries c !! i = Some q ->
      b !! i = Some (mdq_DimensionValue q) /\
      mdq_Id q = queryID i /\ sscanf_m_d (mdq_Id q) = Some (Z.of_nat i) /\
      mdq_Namespace q = ns /\ mdq_MetricName q = mn /\ mdq_DimensionName q = dn /\
      mdq_Period q = 3600 /\ mdq_Stat q = st.
Proof.
  intros Hf Hj.
  destruct (fetchMetric_shape _ _ _ _ _ _ _ _ _ _ _ _ Hf Hj) as (b & Hb & ->).
  destruct (batchIDs_500 ids) as (_ & Hsz & _).
  assert (Hbl : (length b <= 500)%nat).
  { rewrite Forall_lookup in Hsz. apply (Hsz j b Hb). }
  exists b. split; [done|]. simpl. split; [|split].
  - unfold buildQueries. apply length_imap.
  - apply NoDup_alt. intros i1 i2 x H1 H2.
    rewrite list_lookup_fmap in H1, H2.
    destruct (buildQueries ns mn dn st b !! i1) as [q1|] eqn:Hq1; [|discriminate].
    destruct (buildQueries ns mn dn st b !! i2) as [q2|] eqn:Hq2; [|discriminate].
    simpl in H1, H2. injection H1 as H1. injection H2 as H2.
    apply buildQueries_lookup in Hq1 as (Hb1 & Hid1 & _).
    apply buildQueries_lookup in Hq2 as (Hb2 & Hid2 & _).
    apply lookup_lt_Some in Hb1, Hb2.
    apply queryID_inj; [unfold int64_max; lia | unfold int64_max; lia | congruence].
  - intros i q Hq. apply buildQueries_lookup in Hq as (Hbi & Hid & H1 & H2 & H3 & H4 & H5).
    repeat split; try done.
    rewrite Hid. apply sscanf_queryID.
    apply lookup_lt_Some in Hbi. unfold int64_max. lia.
Qed.

(** Witness: the one request for the instance ["i-1"]. *)
Lemma fetchMetric_queries_witness :
  (ec2_cpu "Average" ["i-1"%string] m0_client =
     ([call_i1 "Average"], snd (ec2_cpu "Average" ["i-1"%string] m0_client)) /\
   [call_i1 "Average"] !! 0%nat = Some (call_i1 "Average")) /\
  exists b, batchIDs ["i-1"%string] maxMetricDataQueries !! 0%nat = Some b /\
    length (gmd_MetricDataQueries (call_i1 "Average")) = length b /\
    NoDup (map mdq_Id (gmd_MetricDataQueries (call_i1 "Average"))) /\
    forall i q, gmd_MetricDataQueries (call_i1 "Average") !! i = Some q ->
      b !! i = Some (mdq_DimensionValue q) /\
      mdq_Id q = queryID i /\ sscanf_m_d (mdq_Id q) = Some (Z.of_nat i) /\
      mdq_Namespace q = "AWS/EC2"%string /\ mdq_MetricName q = "CPUUtilization"%string /\
      mdq_DimensionName q = "InstanceId"%string /\
      mdq_Period q = 3600 /\ mdq_Stat q = "Average"%string.
Proof.
  split; [split; [vm_compute; reflexivity | reflexivity]|].
  apply (fetchMetric_queries m0_client "AWS/EC2" "CPUUtilization" "InstanceId"
           ["i-1"%string] 7 "Average" now0 [call_i1 "Average"]
           (snd (ec2_cpu "Average" ["i-1"%string] m0_client)) 0 (call_i1 "Average")).
  - vm_compute. reflexivity.
  - reflexivity.
Defined.


(** Every request of [fetchMetric] asks for the window that ends now and
    starts [lookbackDays] days earlier, for any [lookbackDays] whose
    duration fits in a Go [time.Duration] ([|lookbackDays| <= 106751]). *)
Theorem fetchMetric_window (client : CloudWatchAPI) (ns mn dn : string)
  (ids : list string) (lb : Z) (st : string) (now : Z)
  (calls : list GetMetricDataInput) (out : FetchOutcome) (j : nat)
  (c : GetMetricDataInput) :
  -106751 <= lb <= 106751 ->
  fetchMetric client ns mn dn ids lb st now = (calls, out) ->
  calls !! j = Some c ->
  gmd_StartTime c = now - lb * 24 * 3600 * 10 ^ 9 /\ gmd_EndTime c = now.
Proof.
  intros Hlb Hf Hj.
  destruct (fetchMetric_shape _ _ _ _ _ _ _ _ _ _ _ _ Hf Hj) as (b & _ & ->).
  simpl. split; [|done].
  assert (H63 : 2 ^ 63 = 9223372036854775808) by reflexivity.
  assert (H9 : 10 ^ 9 = 1000000000) by reflexivity.
  unfold hour_ns. rewrite H9.
  rewrite (wrap64_small (- lb * 24)) by (unfold int64_min, int64_max; lia).
  rewrite wrap64_small by (unfold int64_min, int64_max; lia).
  lia.
Qed.

(** Witness: a week of lookback for ["i-1"]. *)
Lemma fetchMetric_window_witness :
  (-106751 <= 7 <= 106751 /\
   ec2_cpu "Average" ["i-1"%string] m0_client =
     ([call_i1 "Average"], snd (ec2_cpu "Average" ["i-1"%string] m0_client)) /\
   [call_i1 "Average"] !! 0%nat = Some (call_i1 "Average")) /\
  gmd_StartTime (call_i1 "Average") = now0 - 7 * 24 * 3600 * 10 ^ 9 /\
  gmd_EndTime (call_i1 "Average") = now0.
Proof.
  split; [split; [lia | split; [vm_compute; reflexivity | reflexivity]]|].
  apply (fetchMetric_window m0_client "AWS/EC2" "CPUUtilization" "InstanceId"
           ["i-1"%string] 7 "Average" now0 [call_i1 "Average"]
           (snd (ec2_cpu "Average" ["i-1"%string] m0_client)) 0 (call_i1 "Average")).
  - lia.
  - vm_compute. reflexivity.
  - reflexivity.
Defined.

(* ------------------------------------------------------------------ *)
(** ** Results [fetchMetric] passes over, and when it cannot panic *)

(** A result of a response that has no id, an id [Sscanf] cannot read as
    [m<int>], an index past the batch, or no samples, changes nothing: the
    batch's results are processed as if it were absent. *)
Theorem processResults_ignores (b : list string) (st : string)
  (rs1 rs2 : list MetricDataResult) (r : MetricDataResult) (res : gmap string float) :
  (mdr_Id r = None \/ mdr_Values r = [] \/
   (exists rid, mdr_Id r = Some rid /\ sscanf_m_d rid = None) \/
   (exists rid idx, mdr_Id r = Some rid /\ sscanf_m_d rid = Some idx /\
                    Z.of_nat (length b) <= idx)) ->
  processResults b st (rs1 ++ r :: rs2) res = processResults b st (rs1 ++ rs2) res.
Proof.
  intros Hign. revert res.
  induction rs1 as [|r0 rs1 IH]; intros res; simpl.
  - destruct Hign as [Hn|[Hv|[(rid & Hr & Hs)|(rid & idx & Hr & Hs & Hle)]]].
    + rewrite Hn. done.
    + destruct (mdr_Id r) as [rid|]; [|done].
      destruct (sscanf_m_d rid) as [idx|]; [|done].
      destruct (Z.of_nat (length b) <=? idx); [done|]. rewrite Hv. done.
    + rewrite Hr, Hs. done.
    + rewrite Hr, Hs. destruct (Z.leb_spec (Z.of_nat (length b)) idx); [done|lia].
  - destruct (mdr_Id r0) as [rid|]; [|apply IH].
    destruct (sscanf_m_d rid) as [idx|]; [|apply IH].
    destruct (Z.of_nat (length b) <=? idx); [apply IH|].
    destruct (mdr_Values r0); [apply IH|].
    destruct (go_index b idx); [apply IH|done].
Qed.

(** Witness: a result labelled [m7] for a batch of one id. *)
Lemma processResults_ignores_witness :
  (exists rid idx, mdr_Id {| mdr_Id := Some "m7"; mdr_Values := [1%float] |} = Some rid /\
     sscanf_m_d rid = Some idx /\ Z.of_nat (length ["i-1"%string]) <= idx) /\
  processResults ["i-1"%string] "Sum" ([result_i1] ++
      {| mdr_Id := Some "m7"; mdr_Values := [1%float] |} :: []) ∅ =
  processResults ["i-1"%string] "Sum" ([result_i1] ++ []) ∅.
Proof.
  assert (H : exists rid idx,
    mdr_Id {| mdr_Id := Some "m7"; mdr_Values := [1%float] |} = Some rid /\
    sscanf_m_d rid = Some idx /\ Z.of_nat (length ["i-1"%string]) <= idx).
  { exists "m7"%string, 7. split; [reflexivity|]. split; [reflexivity|]. simpl. lia. }
  split; [exact H|].
  apply processResults_ignores. right. right. right. exact H.
Defined.

Lemma processResults_some b st rs res :
  Forall (fun r => forall rid idx, mdr_Id r = Some rid -> sscanf_m_d rid = Some idx ->
                   mdr_Values r <> [] -> 0 <= idx) rs ->
  exists res', processResults b st rs res = Some res'.
Proof.
  intros Hall. revert res.
  induction Hall as [|r rs Hr _ IH]; intros res; simpl; [eauto|].
  destruct (mdr_Id r) as [rid|] eqn:Hid; [|apply IH].
  destruct (sscanf_m_d rid) as [idx|] eqn:Hs; [|apply IH].
  destruct (Z.leb_spec (Z.of_nat (length b)) idx) as [Hle|Hlt]; [apply IH|].
  destruct (mdr_Values r) as [|v vs] eqn:Hv; [apply IH|].
  assert (H0 : 0 <= idx) by (apply (Hr rid idx); congruence).
  unfold go_index. destruct (Z.ltb_spec idx 0); [lia|].
  destruct (lookup_lt_is_Some_2 b (Z.to_nat idx)) as [k Hk]; [lia|].
  rewrite Hk. apply IH.
Qed.

Section NoPanic.

Variables (client : CloudWatchAPI) (ns mn dn st : string) (s n : Z).
Hypothesis no_negative : forall k c rs r rid idx,
  client k c = CallOk rs -> r ∈ rs -> mdr_Id r = Some rid ->
  sscanf_m_d rid = Some idx -> mdr_Values r <> [] -> 0 <= idx.

Lemma fetch_batches_no_panic (batches : list (list string)) k res :
  snd (fetch_batches client k ns mn dn st s n batches res) <> FetchPanic /\
  ((forall k' c, exists rs, client k' c = CallOk rs) ->
   exists m, snd (fetch_batches client k ns mn dn st s n batches res) = FetchOk m).
Proof.
  revert k res; induction batches as [|b rest IH]; intros k res; simpl.
  - split; [discriminate|eauto].
  - destruct (client k _) as [rs|e] eqn:Hc.
    + destruct (processResults_some b st rs res) as [res' Hpr].
      { apply Forall_forall. intros r Hr rid idx. eapply no_negative; eauto. }
      rewrite Hpr.
      destruct (IH (S k) res') as [IH1 IH2].
      destruct (fetch_batches client (S k) ns mn dn st s n rest res') as [calls out].
      simpl in *. auto.
    + split; [discriminate|]. intros Hok.
      destruct (Hok k {| gmd_MetricDataQueries := buildQueries ns mn dn st b;
                         gmd_StartTime := s; gmd_EndTime := n |}) as [rs Hrs].
      congruence.
Qed.

End NoPanic.

(** When no result CloudWatch returns with samples has an id that reads
    as a negative index, [fetchMetric] never panics; if moreover no call
    fails, it returns a map. *)
Theorem fetchMetric_no_panic (client : CloudWatchAPI) (ns mn dn : string)
  (ids : list string) (lb : Z) (st : string) (now : Z) :
  (forall k c rs r rid idx,
     client k c = CallOk rs -> r ∈ rs -> mdr_Id r = Some rid ->
     sscanf_m_d rid = Some idx -> mdr_Values r <> [] -> 0 <= idx) ->
  snd (fetchMetric client ns mn dn ids lb st now) <> FetchPanic /\
  ((forall k c, exists rs, client k c = CallOk rs) ->
   exists m, snd (fetchMetric client ns mn dn ids lb st now) = FetchOk m).
Proof.
  intros Hneg. destruct ids as [|id0 ids'] eqn:Hids.
  { unfold fetchMetric. simpl. split; [discriminate|eauto]. }
  rewrite <- Hids. rewrite fetchMetric_unfold by (subst; done).
  apply fetch_batches_no_panic. exact Hneg.
Qed.

(** Witness: a client answering every call with the result [m0]. *)
Lemma fetchMetric_no_panic_witness :
  (forall k c rs r rid idx,
     m0_client k c = CallOk rs -> r ∈ rs -> mdr_Id r = Some rid ->
     sscanf_m_d rid = Some idx -> mdr_Values r <> [] -> 0 <= idx) /\
  snd (ec2_cpu "Sum" ids501 m0_client) <> FetchPanic /\
  ((forall k c, exists rs, m0_client k c = CallOk rs) ->
   exists m, snd (ec2_cpu "Sum" ids501 m0_client) = FetchOk m).
Proof.
  assert (H : forall k c rs r rid idx,
     m0_client k c = CallOk rs -> r ∈ rs -> mdr_Id r = Some rid ->
     sscanf_m_d rid = Some idx -> mdr_Values r <> [] -> 0 <= idx).
  { intros k c rs r rid idx Hc Hr Hid Hs _. injection Hc as <-.
    apply list_elem_of_singleton in Hr as ->. injection Hid as <-.
    vm_compute in Hs. injection Hs as <-. lia. }
  split; [exact H|].
  apply (fetchMetric_no_panic m0_client "AWS/EC2" "CPUUtilization" "InstanceId"
           ids501 7 "Sum" now0 H).
Defined.

(* ------------------------------------------------------------------ *)
(** ** Building string maps: the last entry of a key wins *)

Lemma app_cons_snoc {A} (pre post l : list A) (y x : A) :
  pre ++ y :: post = l ++ [x] ->
  (post = [] /\ y = x /\ pre = l) \/
  (exists post', post = post' ++ [x] /\ l = pre ++ y :: post').
Proof.
  intros H. induction post as [|p post' _] using rev_ind.
  - left. apply app_inj_tail in H as [-> ->]. auto.
  - right. exists post'. rewrite app_comm_cons, app_assoc in H.
    apply app_inj_tail in H as [<- ->]. auto.
Qed.

Section LastWins.

Context {A : Type} (key : A -> option string) (val : A -> string)
  (step : gmap string string -> A -> gmap string string).
Hypothesis step_spec : forall m x k,
  step m x !! k = if decide (key x = Some k) then Some (val x) else m !! k.

Lemma fold_last_wins (l : list A) (m0 : gmap string string) (k v : string) :
  fold_left step l m0 !! k = Some v <->
  (exists pre x post, l = pre ++ x :: post /\ key x = Some k /\ val x = v /\
     Forall (fun y => key y <> Some k) post) \/
  (m0 !! k = Some v /\ Forall (fun y => key y <> Some k) l).
Proof.
  induction l as [|x l IH] using rev_ind.
  - simpl. split; [intros H; right; auto|].
    intros [(pre & x & post & Hl & _)|[H _]]; [|done].
    destruct pre; discriminate.
  - rewrite fold_left_app. simpl. rewrite step_spec.
    destruct (decide (key x = Some k)) as [Hx|Hx].
    + split.
      * intros [= <-]. left. exists l, x, []. auto.
      * intros [(pre & y & post & Hl & Hy & Hv & Hpost)|[_ Hall]].
        -- symmetry in Hl; apply app_cons_snoc in Hl as [(-> & -> & ->)|(post' & -> & ->)].
           ++ by rewrite Hv.
           ++ apply Forall_app in Hpost as [_ Hpost].
              inversion Hpost; contradiction.
        -- apply Forall_app in Hall as [_ Hall]. inversion Hall; contradiction.
    + rewrite IH. split.
      * intros [(pre & y & post & -> & Hy & Hv & Hpost)|[Hm Hall]].
        -- left. exists pre, y, (post ++ [x]). rewrite <- app_assoc. simpl.
           split; [done|]. split; [done|]. split; [done|].
           apply Forall_app. split; [done|]. constructor; [done|constructor].
        -- right. split; [done|]. apply Forall_app. split; [done|].
           constructor; [done|constructor].
      * intros [(pre & y & post & Hl & Hy & Hv & Hpost)|[Hm Hall]].
        -- symmetry in Hl; apply app_cons_snoc in Hl as [(-> & -> & ->)|(post' & -> & ->)].
           ++ contradiction.
           ++ left. exists pre, y, post'. apply Forall_app in Hpost as [? _]. auto.
        -- right. apply Forall_app in Hall as [? _]. auto.
Qed.

Lemma fold_last_wins_empty (l : list A) (k v : string) :
  fold_left step l ∅ !! k = Some v <->
  exists pre x post, l = pre ++ x :: post /\ key x = Some k /\ val x = v /\
    Forall (fun y => key y <> Some k) post.
Proof.
  rewrite fold_last_wins, lookup_empty. split; [|auto].
  intros [H|[H _]]; [done|discriminate].
Qed.

End LastWins.

Lemma ec2_tag_step_spec m t k :
  ec2_tag_step m t !! k =
  if decide (ec2tag_Key t = Some k) then Some (default ""%string (ec2tag_Value t))
  else m !! k.
Proof.
  unfold ec2_tag_step. destruct (ec2tag_Key t) as [k'|];
    destruct (decide _) as [Hk|Hk]; try congruence.
  - injection Hk as ->. rewrite lookup_insert_eq. by destruct (ec2tag_Value t).
  - rewrite lookup_insert_ne by congruence. done.
Qed.

Lemma rds_tag_step_spec m t k :
  rds_tag_step m t !! k =
  if decide (rdstag_Key t = Some k) then Some (default ""%string (rdstag_Value t))
  else m !! k.
Proof.
  unfold rds_tag_step. destruct (rdstag_Key t) as [k'|];
    destruct (decide _) as [Hk|Hk]; try congruence.
  - injection Hk as ->. rewrite lookup_insert_eq. by destruct (rdstag_Value t).
  - rewrite lookup_insert_ne by congruence. done.
Qed.

Lemma Cut_eq_not_found (s k v : string) : Cut_eq s = (k, v, false) -> k = s /\ v = ""%string.
Proof.
  revert k v; induction s as [|c t IH]; intros k v; simpl.
  - intros [= <- <-]. done.
  - destruct (Ascii.eqb c "="%char); [discriminate|].
    destruct (Cut_eq t) as [[b a] f] eqn:E. intros [= <- <- ->].
    destruct (IH b a eq_refl) as [-> ->]. done.
Qed.

Lemma parse_tag_step_spec m s k :
  parse_tag_step m s !! k =
  if decide (Some (Cut_eq s).1.1 = Some k) then Some (Cut_eq s).1.2 else m !! k.
Proof.
  unfold parse_tag_step. destruct (Cut_eq s) as [[k' v'] ok] eqn:E. simpl.
  assert (Hk : if ok then True else k' = s /\ v' = ""%string).
  { destruct ok; [done|]. by apply Cut_eq_not_found. }
  destruct ok; [|destruct Hk as [-> ->]];
    destruct (decide _) as [Heq|Hne].
  - injection Heq as ->. apply lookup_insert_eq.
  - rewrite lookup_insert_ne by congruence. done.
  - injection Heq as ->. apply lookup_insert_eq.
  - rewrite lookup_insert_ne by congruence. done.
Qed.

Lemma ec2TagsToMap_lookup_aux (tags : list Ec2Tag) (k v : string) :
  (ec2TagsToMap tags = None <-> tags = []) /\
  (default ∅ (ec2TagsToMap tags) !! k = Some v <->
   exists pre t post, tags = pre ++ t :: post /\ ec2tag_Key t = Some k /\
     default ""%string (ec2tag_Value t) = v /\
     Forall (fun t' => ec2tag_Key t' <> Some k) post).
Proof.
  unfold ec2TagsToMap. destruct tags as [|t0 tags'] eqn:E.
  - simpl. split; [done|]. rewrite lookup_empty. split; [discriminate|].
    intros (pre & t & post & Hl & _). destruct pre; discriminate.
  - cbn [length Nat.eqb default]. rewrite <- E.
    split; [split; [discriminate | intros ->; discriminate]|].
    apply (fold_last_wins_empty ec2tag_Key (fun t => default ""%string (ec2tag_Value t))
             ec2_tag_step ec2_tag_step_spec).
Qed.

(** [ec2TagsToMap] returns [nil] exactly for no tags; otherwise the map
    gives each key the value of the last tag with that key, a [nil]
    value read as [""], and tags with a [nil] key are left out. *)
Theorem ec2TagsToMap_lookup (tags : list Ec2Tag) (k v : string) :
  (ec2TagsToMap tags = None <-> tags = []) /\
  (default ∅ (ec2TagsToMap tags) !! k = Some v <->
   exists pre t post, tags = pre ++ t :: post /\ ec2tag_Key t = Some k /\
     default ""%string (ec2tag_Value t) = v /\
     Forall (fun t' => ec2tag_Key t' <> Some k) post).
Proof. apply ec2TagsToMap_lookup_aux. Qed.

(** [rdsTagsToMap] returns [nil] exactly for no tags; otherwise the map
    gives each key the value of the last tag with that key, a [nil]
    value read as [""], and tags with a [nil] key are left out. *)
Theorem rdsTagsToMap_lookup (tags : list RdsTag) (k v : string) :
  (rdsTagsToMap tags = None <-> tags = []) /\
  (default ∅ (rdsTagsToMap tags) !! k = Some v <->
   exists pre t post, tags = pre ++ t :: post /\ rdstag_Key t = Some k /\
     default ""%string (rdstag_Value t) = v /\
     Forall (fun t' => rdstag_Key t' <> Some k) post).
Proof.
  unfold rdsTagsToMap. destruct tags as [|t0 tags'] eqn:E.
  - simpl. split; [done|]. rewrite lookup_empty. split; [discriminate|].
    intros (pre & t & post & Hl & _). destruct pre; discriminate.
  - cbn [length Nat.eqb default]. rewrite <- E.
    split; [split; [discriminate | intros ->; discriminate]|].
    apply (fold_last_wins_empty rdstag_Key (fun t => default ""%string (rdstag_Value t))
             rds_tag_step rds_tag_step_spec).
Qed.

(** [ParseTags] returns [nil] exactly for no entries; otherwise the map
    gives each key the value of the last entry with that key, where an
    entry is cut at its first ["="] into key and value, and an entry with
    no ["="] is a key with the value [""]. *)
Theorem ParseTags_lookup (tags : list string) (k v : string) :
  (ParseTags tags = None <-> tags = []) /\
  (default ∅ (ParseTags tags) !! k = Some v <->
   exists pre s post, tags = pre ++ s :: post /\ (Cut_eq s).1.1 = k /\
     (Cut_eq s).1.2 = v /\ Forall (fun s' => (Cut_eq s').1.1 <> k) post).
Proof.
  unfold ParseTags. destruct tags as [|t0 tags'] eqn:E.
  - simpl. split; [done|]. rewrite lookup_empty. split; [discriminate|].
    intros (pre & t & post & Hl & _). destruct pre; discriminate.
  - cbn [length Nat.eqb default]. rewrite <- E.
    split; [split; [discriminate | intros ->; discriminate]|].
    unfold id.
    rewrite (fold_last_wins_empty (fun s => Some (Cut_eq s).1.1) (fun s => (Cut_eq s).1.2)
               parse_tag_step parse_tag_step_spec).
    split; intros (pre & s & post & H1 & H2 & H3 & H4); exists pre, s, post.
    + split; [done|]. split; [congruence|]. split; [done|].
      eapply Forall_impl; [exact H4|]. simpl. congruence.
    + split; [done|]. split; [congruence|]. split; [done|].
      eapply Forall_impl; [exact H4|]. simpl. congruence.
Qed.

Lemma Cut_eq_key (k v : string) :
  no_equals k = true -> Cut_eq (k +:+ "=" +:+ v) = (k, v, true).
Proof.
  induction k as [|c t IH]; simpl; [done|].
  intros H. apply andb_prop in H as [Hc Ht].
  destruct (Ascii.eqb c "="%char); [discriminate|]. rewrite IH by done. done.
Qed.

Lemma Cut_eq_plain (k : string) :
  no_equals k = true -> Cut_eq k = (k, ""%string, false).
Proof.
  induction k as [|c t IH]; simpl; [done|].
  intros H. apply andb_prop in H as [Hc Ht].
  destruct (Ascii.eqb c "="%char); [discriminate|]. rewrite IH by done. done.
Qed.

(** For a key [k] without ["="], [ParseTags] reads the entry ["k=v"] as
    the predicate [k = v] (whatever [v] holds, ["="] included) and the
    entry ["k"] as the key-only predicate [k = ""]. *)
Theorem ParseTags_entry (k v : string) :
  no_equals k = true ->
  ParseTags [k +:+ "=" +:+ v] = Some {[k := v]} /\
  ParseTags [k] = Some {[k := ""%string]}.
Proof.
  intros Hk. unfold ParseTags. cbn [length Nat.eqb fold_left].
  unfold parse_tag_step. rewrite Cut_eq_key, Cut_eq_plain by done. done.
Qed.

(** Witness: the entries ["Env=prod"] and ["Env"]. *)
Lemma ParseTags_entry_witness :
  no_equals "Env" = true /\
  ParseTags ["Env" +:+ "=" +:+ "prod"] = Some {["Env" := "prod"]} /\
  ParseTags ["Env"%string] = Some {["Env" := ""%string]}.
Proof.
  split; [reflexivity|]. apply ParseTags_entry. reflexivity.
Defined.

(* ------------------------------------------------------------------ *)
(** ** [ShouldExclude] on the tag maps of the scanners *)

Lemma ShouldExclude_true (e : ExcludeConfig) (resourceID : string)
  (tags : option (gmap string string)) :
  ShouldExclude e resourceID tags = true <->
  ResourceIDs e !! resourceID = Some true \/ exists t, tags = Some t /\ tag_match e t.
Proof.
  assert (Hid : default false (ResourceIDs e !! resourceID) = true <->
                ResourceIDs e !! resourceID = Some true).
  { destruct (ResourceIDs e !! resourceID) as [[]|]; simpl; split; congruence. }
  unfold ShouldExclude.
  destruct (default false (ResourceIDs e !! resourceID)) eqn:Hd.
  - split; [intros _; left; apply Hid; done | done].
  - assert (Hn : ResourceIDs e !! resourceID <> Some true)
      by (intros H; apply Hid in H; discriminate).
    destruct tags as [t|].
    + assert (Htags : (if (map_size (Tags e) =? 0)%nat then false
                       else tag_loop (map_to_list (Tags e)) t) = true <-> tag_match e t).
      { unfold tag_match. destruct (Nat.eqb_spec (map_size (Tags e)) 0) as [H0|H0].
        - apply map_size_empty_iff in H0. rewrite H0. split; [discriminate|].
          intros (k & v & tv & Hk & _). rewrite lookup_empty in Hk. discriminate.
        - apply tag_loop_map. }
      rewrite Htags. split; [intros H; right; eauto|].
      intros [H|(t' & Ht' & H)]; [contradiction|]. injection Ht' as <-. done.
    + split; [discriminate|]. intros [H|(t' & Ht' & _)]; [contradiction|discriminate].
Qed.

(** Adding tags to a resource never lifts its exclusion: a resource
    excluded with a [nil] tag map is excluded with any tag map, and one
    excluded with the tag map [t] is excluded with every tag map that
    contains [t]. *)
Theorem ShouldExclude_more_tags (e : ExcludeConfig) (resourceID : string)
  (t t' : gmap string string) :
  t ⊆ t' ->
  (ShouldExclude e resourceID None = true -> ShouldExclude e resourceID (Some t) = true) /\
  (ShouldExclude e resourceID (Some t) = true -> ShouldExclude e resourceID (Some t') = true).
Proof.
  intros Hsub. rewrite !ShouldExclude_true. split.
  - intros [H|(t0 & Ht0 & _)]; [left; done | discriminate].
  - intros [H|(t0 & Ht0 & k & v & tv & Hk & Ht & Hv)]; [left; done|].
    injection Ht0 as <-. right. exists t'. split; [done|].
    exists k, v, tv. split; [done|]. split; [|done]. by eapply lookup_weaken.
Qed.

(** Witness: the predicate [Env=prod] excludes a resource tagged only
    [Env=prod], and still does once it also carries [Team=web]. *)
Lemma ShouldExclude_more_tags_witness :
  ({["Env" := "prod"]} : gmap string string) ⊆ <["Team" := "web"]> {["Env" := "prod"]} /\
  ShouldExclude {| ResourceIDs := ∅; Tags := {["Env" := "prod"]} |} "i-1"
    (Some {["Env" := "prod"]}) = true /\
  ShouldExclude {| ResourceIDs := ∅; Tags := {["Env" := "prod"]} |} "i-1"
    (Some (<["Team" := "web"]> {["Env" := "prod"]})) = true.
Proof.
  assert (Hsub : ({["Env" := "prod"]} : gmap string string) ⊆
                 <["Team" := "web"]> {["Env" := "prod"]}).
  { apply insert_subseteq. rewrite lookup_singleton_ne; done. }
  assert (H1 : ShouldExclude {| ResourceIDs := ∅; Tags := {["Env" := "prod"]} |} "i-1"
                 (Some {["Env" := "prod"]}) = true) by (vm_compute; reflexivity).
  split; [exact Hsub|]. split; [exact H1|].
  exact (proj2 (ShouldExclude_more_tags _ _ _ _ Hsub) H1).
Defined.

(** The EC2 scanner's exclusion test [ShouldExclude(id, ec2TagsToMap(tags))]:
    an instance is excluded exactly when its id is in the id set, or some
    tag predicate [k = v] of the configuration meets the instance's last
    tag with key [k], [v = ""] matching any value and a [nil] tag value
    read as [""]. *)
Theorem ShouldExclude_ec2Tags (e : ExcludeConfig) (resourceID : string)
  (tags : list Ec2Tag) :
  ShouldExclude e resourceID (ec2TagsToMap tags) = true <->
  ResourceIDs e !! resourceID = Some true \/
  exists k v pre t post, Tags e !! k = Some v /\ tags = pre ++ t :: post /\
    ec2tag_Key t = Some k /\ Forall (fun t' => ec2tag_Key t' <> Some k) post /\
    (v = ""%string \/ default ""%string (ec2tag_Value t) = v).
Proof.
  rewrite ShouldExclude_true. apply or_iff_compat_l. split.
  - intros (m & Hm & k & v & tv & Hk & Hmk & Hv).
    assert (Hl : default ∅ (ec2TagsToMap tags) !! k = Some tv) by (rewrite Hm; done).
    apply (proj2 (ec2TagsToMap_lookup_aux tags k tv)) in Hl
      as (pre & t & post & Htags & Hkey & Hval & Hpost).
    exists k, v, pre, t, post. rewrite Hval. auto 6.
  - intros (k & v & pre & t & post & Hk & Htags & Hkey & Hpost & Hv).
    destruct (ec2TagsToMap tags) as [m|] eqn:Hm.
    + exists m. split; [done|]. exists k, v, (default ""%string (ec2tag_Value t)).
      split; [done|]. split; [|done].
      change (m !! k) with (default ∅ (Some m) !! k). rewrite <- Hm.
      apply (proj2 (ec2TagsToMap_lookup_aux tags k _)). eauto 7.
    + apply (proj1 (ec2TagsToMap_lookup_aux tags k v)) in Hm.
      rewrite Hm in Htags. destruct pre; discriminate.
Qed.

(* ------------------------------------------------------------------ *)
(** ** [scanRegion] and [ScanAll], for every outcome of the scanners *)

(** [scanRegion] always returns a result, never an error: its [Errors]
    holds one entry ["<region>/<type>: <cause>"] per failed scanner, in
    completion order; its [Findings] and [ResourcesScanned] (modulo
    [2^64]) are those of the successful scanners; its [RegionsScanned]
    stays [0]. *)
Theorem scanRegion_result (region : string) (done : list ResourceScanner) :
  scanRegion region done =
  RegionOk {| Findings := concat (map Findings (scanner_successes done));
              Errors := scanner_failures region done;
              ResourcesScanned :=
                wrap64 (total (map ResourcesScanned (scanner_successes done)));
              RegionsScanned := 0 |}.
Proof. apply scanRegion_eq. Qed.

(** The order in which the scanners' goroutines finish changes the order
    of a region's [Findings] and [Errors], never their contents, nor its
    [ResourcesScanned] and [RegionsScanned]. *)
Theorem scanRegion_order (region : string) (done done' : list ResourceScanner) :
  done ≡ₚ done' ->
  exists r r', scanRegion region done = RegionOk r /\
    scanRegion region done' = RegionOk r' /\
    Findings r ≡ₚ Findings r' /\ Errors r ≡ₚ Errors r' /\
    ResourcesScanned r = ResourcesScanned r' /\ RegionsScanned r = RegionsScanned r'.
Proof.
  intros Hp. rewrite !scanRegion_eq. eexists _, _. split; [done|]. split; [done|].
  cbn [Findings Errors ResourcesScanned RegionsScanned].
  rewrite <- !scanner_findings_successes, <- !scanner_errors_failures,
    <- !scanner_count_successes.
  split; [by apply concat_map_perm|]. split; [by apply concat_map_perm|].
  split; [|done]. f_equal. apply total_perm. by apply Permutation_map.
Qed.

(** Witness: two scanners finishing in either order. *)
Lemma scanRegion_order_witness :
  exists r r', scanRegion "us-east-1" [ok_scanner "ec2" ec2_result; denied_scanner] =
                 RegionOk r /\
    scanRegion "us-east-1" [denied_scanner; ok_scanner "ec2" ec2_result] = RegionOk r' /\
    Findings r ≡ₚ Findings r' /\ Errors r ≡ₚ Errors r' /\
    ResourcesScanned r = ResourcesScanned r' /\ RegionsScanned r = RegionsScanned r'.
Proof. apply scanRegion_order. apply perm_swap. Defined.

(** The order in which the regions' goroutines finish changes the order
    of [ScanAll]'s [Findings] and [Errors], never their contents, nor its
    [ResourcesScanned] and [RegionsScanned]. *)
Theorem ScanAll_order (s : MultiRegionScanner) (scanRegionFn : string -> RegionOutcome)
  (done done' : list string) :
  done ≡ₚ done' ->
  exists c c', ScanAll s scanRegionFn done = (Some c, None) /\
    ScanAll s scanRegionFn done' = (Some c', None) /\
    Findings c ≡ₚ Findings c' /\ Errors c ≡ₚ Errors c' /\
    ResourcesScanned c = ResourcesScanned c' /\ RegionsScanned c = RegionsScanned c'.
Proof.
  intros Hp.
  destruct (ScanAll_fields s scanRegionFn done) as (c & Hc & HF & HE & HR & HN).
  destruct (ScanAll_fields s scanRegionFn done') as (c' & Hc' & HF' & HE' & HR' & HN').
  exists c, c'. split; [done|]. split; [done|].
  rewrite HF, HF', HE, HE', HR, HR', HN, HN'.
  split; [by apply concat_map_perm|]. split; [by apply concat_map_perm|].
  split; [|done]. f_equal. apply total_perm. by apply Permutation_map.
Qed.

(** Witness: two regions finishing in either order. *)
Lemma ScanAll_order_witness :
  exists c c', ScanAll two_regions (fun _ => RegionOk partial_result)
                 ["us-east-1"%string; "eu-west-1"%string] = (Some c, None) /\
    ScanAll two_regions (fun _ => RegionOk partial_result)
      ["eu-west-1"%string; "us-east-1"%string] = (Some c', None) /\
    Findings c ≡ₚ Findings c' /\ Errors c ≡ₚ Errors c' /\
    ResourcesScanned c = ResourcesScanned c' /\ RegionsScanned c = RegionsScanned c'.
Proof. apply ScanAll_order. apply perm_swap. Defined.

(** [ScanAll] over the regions' [scanRegion]: the whole scan's [Errors]
    are exactly the entries ["<region>/<type>: <cause>"] of the failed
    scanners, region after region (the successful scanners' own errors are
    not among them), its [Findings] those of the successful scanners, and
    its [ResourcesScanned] their grand total modulo [2^64], whatever
    wrapping happened inside the regions. *)
Theorem ScanAll_scanRegion (s : MultiRegionScanner)
  (scanners : string -> list ResourceScanner) (done : list string) :
  exists combined,
    ScanAll s (fun r => scanRegion r (scanners r)) done = (Some combined, None) /\
    Errors combined = concat (map (fun r => scanner_failures r (scanners r)) done) /\
    Findings combined =
      concat (map (fun r => concat (map Findings (scanner_successes (scanners r)))) done) /\
    ResourcesScanned combined =
      wrap64 (total (map (fun r => total (map ResourcesScanned
                                                (scanner_successes (scanners r)))) done)) /\
    RegionsScanned combined = Z.of_nat (length (msr_regions s)).
Proof. apply ScanAll_scanRegion_eq. Qed.

(** When the scanners' counts are non-negative and their grand total fits
    an [int64], the whole scan's [ResourcesScanned] is that grand total. *)
Theorem ScanAll_scanRegion_count (s : MultiRegionScanner)
  (scanners : string -> list ResourceScanner) (done : list string) :
  Forall (fun r => Forall (fun sr => 0 <= ResourcesScanned sr)
                          (scanner_successes (scanners r))) done ->
  total (map (fun r => total (map ResourcesScanned (scanner_successes (scanners r)))) done)
    <= int64_max ->
  exists combined,
    ScanAll s (fun r => scanRegion r (scanners r)) done = (Some combined, None) /\
    ResourcesScanned combined =
      total (map (fun r => total (map ResourcesScanned (scanner_successes (scanners r)))) done).
Proof.
  intros Hnn Hmax.
  destruct (ScanAll_scanRegion_eq s scanners done) as (c & Hc & _ & _ & HR & _).
  exists c. split; [done|]. rewrite HR. apply wrap64_small. split; [|done].
  assert (0 <= total (map (fun r => total (map ResourcesScanned
                                          (scanner_successes (scanners r)))) done)).
  { apply total_nonneg. apply Forall_map. eapply Forall_impl; [exact Hnn|].
    intros r Hr. apply total_nonneg. by apply Forall_map. }
  unfold int64_min. lia.
Qed.

(** Witness: two regions whose successful scanners count [3] and [1]
    resources, next to a failed one. *)
Lemma ScanAll_scanRegion_count_witness :
  exists combined,
    ScanAll two_regions
      (fun r => scanRegion r (if String.eqb r "us-east-1"
                              then [ok_scanner "ec2" ec2_result; denied_scanner]
                              else [ok_scanner "rds" partial_result]))
      ["us-east-1"%string; "eu-west-1"%string] = (Some combined, None) /\
    ResourcesScanned combined =
      total (map (fun r => total (map ResourcesScanned (scanner_successes
               (if String.eqb r "us-east-1"
                then [ok_scanner "ec2" ec2_result; denied_scanner]
                else [ok_scanner "rds" partial_result]))))
             ["us-east-1"%string; "eu-west-1"%string]).
Proof.
  apply (ScanAll_scanRegion_count two_regions
           (fun r => if String.eqb r "us-east-1"
                     then [ok_scanner "ec2" ec2_result; denied_scanner]
                     else [ok_scanner "rds" partial_result])).
  - vm_compute. repeat constructor; discriminate.
  - vm_compute. discriminate.
Defined.
